(** * customerimporter: email domains of a customer CSV, counted and sorted

    A shallow embedding of [interview.go] (package [customerimporter]) and
    the properties of its import pipeline: header resolution
    ([parseHeader]), the per-line step ([processLine]), the aggregation map
    and the sorted result ([sortResults]), driven by [Import].

    Conventions of the embedding:
    - a Go [string] is a [string] (a sequence of bytes);
    - a Go [int] is a [Z] kept inside the 64-bit range, additions wrap
      around ([GoInt.add]);
    - [map[string]int] is a [gmap string Z]; reading a missing key gives 0;
    - a run-time panic (index out of range) is an explicit outcome
      ([Panics]), never a default value;
    - [*csv.Reader] is the sequence of results its [Read] method gives,
      [None] standing for the nil pointer;
    - the standard logger is the list of the messages handed to
      [log.Printf], oldest first (the time-stamp prefix is left out). *)

From Stdlib Require Ascii.
From stdpp Require Import gmap strings list fin_maps sorting pretty.
Import (notations) Stdlib.Strings.Ascii.

Local Open Scope Z_scope.

(** ** Go's [int] (64-bit platforms) *)

Module GoInt.

Definition bits : Z := 64.
Definition MinInt : Z := - 2 ^ (bits - 1).
Definition MaxInt : Z := 2 ^ (bits - 1) - 1.

(** Two's complement reduction of a mathematical integer to an [int]. *)
Definition wrap (z : Z) : Z := (z - MinInt) mod 2 ^ bits + MinInt.

Definition add (a b : Z) : Z := wrap (a + b).

(** [x++] *)
Definition incr (x : Z) : Z := add x 1.

Definition InRange (z : Z) : Prop := MinInt <= z <= MaxInt.

End GoInt.

(** ** The functions of package [strings] the importer calls *)

Module Strings.

(** [strings.Split(s, sep)] for a separator of one byte: the pieces of [s]
    between the occurrences of [sep], in order. There is always at least
    one piece, pieces may be empty. *)
Fixpoint Split (s : string) (sep : Ascii.ascii) : list string :=
  match s with
  | EmptyString => [EmptyString]
  | String c rest =>
      if Ascii.eqb c sep then EmptyString :: Split rest sep
      else match Split rest sep with
           | piece :: pieces => String c piece :: pieces
           | [] => [String c EmptyString]
           end
  end.

(** Lower-casing of one byte: 'A'..'Z' (65..90) move to 'a'..'z'. *)
Definition lowerByte (c : Ascii.ascii) : Ascii.ascii :=
  let n := Ascii.N_of_ascii c in
  if ((65 <=? n) && (n <=? 90))%N then Ascii.ascii_of_N (n + 32) else c.

(** [strings.ToLower(s)], byte by byte. This is what Go computes on a
    string of ASCII bytes; bytes from 128 on (parts of multi-byte runes,
    for which Go applies Unicode case mapping) are kept as they are. *)
Fixpoint ToLower (s : string) : string :=
  match s with
  | EmptyString => EmptyString
  | String c rest => String (lowerByte c) (ToLower rest)
  end.

(** [strings.Count(s, sep)] for a separator of one byte. *)
Fixpoint Count (s : string) (sep : Ascii.ascii) : nat :=
  match s with
  | EmptyString => 0%nat
  | String c rest => ((if Ascii.eqb c sep then 1 else 0) + Count rest sep)%nat
  end.

End Strings.

(** ** Errors and panics *)

(** A Go [error] value: the sentinel [io.EOF], which [Import] recognises by
    identity, or any other error, known by the text of its [Error()]. *)
Inductive error : Type :=
  | EOF
  | ErrorString (msg : string).

Definition Error (e : error) : string :=
  match e with
  | EOF => "EOF"
  | ErrorString msg => msg
  end.

(** The run-time panic of an indexing expression [s[i]] out of range. *)
Inductive panic : Type :=
  | IndexOutOfRange (index len : Z).

(** What a call does: it returns, or it panics. *)
Inductive outcome (A : Type) : Type :=
  | Normal (a : A)
  | Panics (p : panic).
Arguments Normal {A} a.
Arguments Panics {A} p.

#[global] Instance outcome_ret : MRet outcome := λ A a, Normal a.

#[global] Instance outcome_bind : MBind outcome := λ A B k m,
  match m with
  | Normal a => k a
  | Panics p => Panics p
  end.

(** The indexing expression [s[i]] on a slice. *)
Definition index {A} (s : list A) (i : Z) : outcome A :=
  if (i <? 0) || (Z.of_nat (length s) <=? i) then
    Panics (IndexOutOfRange i (Z.of_nat (length s)))
  else match s !! Z.to_nat i with
       | Some x => Normal x
       | None => Panics (IndexOutOfRange i (Z.of_nat (length s)))
       end.

(** ** Package [fmt]: the texts the importer formats *)

Module Fmt.

(** The flag bytes of a formatting directive. *)
Definition isFlag (c : Ascii.ascii) : bool :=
  bool_decide (c ∈ ["#"; "0"; "+"; "-"; " "]%char).

(** What [fmt] prints for a format string that comes with NO operands, as
    in [fmt.Errorf(errorMsg)] and [log.Printf(errorMsg)]: bytes other than
    '%' are copied; a '%' opens a directive, whose flags are skipped; the
    verb '%' prints one '%'; any other verb [c] finds no operand and
    prints "%!c(MISSING)"; a directive cut by the end of the string prints
    "%!(NOVERB)". [inDirective] tells that a '%' has been read and its verb
    has not.

    This follows [fmt] on the formats in which each '%' is followed by
    flags and then by the end of the string or by a verb that is a byte
    below 128 other than '*', '.', '[' and the digits 1 to 9 (which open
    a width, a precision or an argument index). What is proved from it
    below stays among these formats. *)
Fixpoint noOperands (inDirective : bool) (format : string) : string :=
  match format with
  | EmptyString => if inDirective then "%!(NOVERB)" else EmptyString
  | String c rest =>
      if inDirective then
        if isFlag c then noOperands true rest
        else if Ascii.eqb c "%" then String "%" (noOperands false rest)
        else "%!" +:+ String c "(MISSING)" +:+ noOperands false rest
      else if Ascii.eqb c "%" then noOperands true rest
      else String c (noOperands false rest)
  end.

(** [fmt.Sprintf(format)], no operands. *)
Definition Sprintf0 (format : string) : string := noOperands false format.

(** [fmt.Errorf(format)], no operands. *)
Definition Errorf0 (format : string) : error := ErrorString (Sprintf0 format).

(** The verb "%d" on an [int]: decimal, '-' before a negative number. *)
Definition verb_d (n : Z) : string := pretty n.

End Fmt.

(** ** The importer *)

Definition defaultCsvFileName : string := "customers.csv".
Definition defaultEmailColumnName : string := "email".
Definition numExpectedEmailComponents : Z := 2.
Definition emailDomainIndex : Z := 1.

Record customerImporter : Type := {
  CsvFileName : string;
  EmailColumnName : string
}.

(** Modelled from the spec: the struct [EmailGroup] is declared outside
    [interview.go]; its two fields are the ones [sortResults] fills and the
    README lists, a domain and how many addresses have it. *)
Record EmailGroup : Type := {
  EmailDomain : string;
  Counter : Z
}.

Definition New : customerImporter :=
  {| CsvFileName := defaultCsvFileName;
     EmailColumnName := defaultEmailColumnName |}.

Definition SetCsvFileName (ci : customerImporter) (fileName : string)
  : customerImporter :=
  {| CsvFileName := fileName; EmailColumnName := EmailColumnName ci |}.

Definition SetEmailColumnName (ci : customerImporter) (columnName : string)
  : customerImporter :=
  {| CsvFileName := CsvFileName ci; EmailColumnName := columnName |}.

(** *** The reader *)

(** One call of [Read]: a record, or an error other than [io.EOF] (a
    record with the wrong number of fields, a quoting error, an I/O
    failure) with its text. *)
Inductive readResult : Type :=
  | Fields (record : list string)
  | Failure (msg : string).

(** The results the coming calls of [Read] give; once they are used up,
    [Read] gives [io.EOF]. *)
Definition Reader : Type := list readResult.

Definition Read (reader : Reader) : (list string + error) * Reader :=
  match reader with
  | [] => (inr EOF, [])
  | Fields record :: reader' => (inl record, reader')
  | Failure msg :: reader' => (inr (ErrorString msg), reader')
  end.

(** *** parseHeader *)

(** The loop of [parseHeader] over the header, [emailColIndex] being the
    count of the columns already passed. (A slice has at most [MaxInt]
    elements, this counter cannot overflow.) *)
Fixpoint parseHeader_loop (header : list string) (columnName : string)
  (emailColIndex : Z) : option Z :=
  match header with
  | [] => None
  | colName :: header' =>
      if String.eqb colName columnName then Some emailColIndex
      else parseHeader_loop header' columnName (emailColIndex + 1)
  end.

(** [fmt.Sprintf("missing column name '%s' in the first line of the file", name)] *)
Definition missingColumnMsg (columnName : string) : string :=
  "missing column name '" +:+ columnName +:+ "' in the first line of the file".

(** The state [parseHeader] and [Import] thread: what is left of the
    reader, and the log. *)
Record world : Type := {
  pending : Reader;
  logged : list string
}.

Definition logPrintf (w : world) (msg : string) : world :=
  {| pending := pending w; logged := logged w ++ [msg] |}.

(** [parseHeader]: the index and the error it returns, and the state it
    leaves. The reader is [None] for a nil pointer. *)
Definition parseHeader (ci : customerImporter) (reader : option Reader)
  (log : list string) : (Z * option error) * world :=
  match reader with
  | None =>
      ((-1, Some (ErrorString "invalid reader")),
       {| pending := []; logged := log |})
  | Some r =>
      let '(res, r') := Read r in
      let w := {| pending := r'; logged := log |} in
      match res with
      | inr err => ((-1, Some err), w)
      | inl header =>
          match parseHeader_loop header (EmailColumnName ci) 0 with
          | Some emailColIndex => ((emailColIndex, None), w)
          | None =>
              let errorMsg := missingColumnMsg (EmailColumnName ci) in
              ((-1, Some (Fmt.Errorf0 errorMsg)),
               logPrintf w (Fmt.Sprintf0 errorMsg))
          end
      end
  end.

(** *** processLine *)

(** [fmt.Errorf("email field not found at line %d", lineNumber)] *)
Definition fieldNotFound (lineNumber : Z) : error :=
  ErrorString ("email field not found at line " +:+ Fmt.verb_d lineNumber).

(** [fmt.Errorf("invalid email format")] *)
Definition invalidEmailFormat : error := ErrorString "invalid email format".

(** [custGrp[mailDomain]++] *)
Definition increment (custGrp : gmap string Z) (mailDomain : string)
  : gmap string Z :=
  <[mailDomain := GoInt.incr (default 0 (custGrp !! mailDomain))]> custGrp.

(** [processLine]: the map after the call and the error returned ([None]
    for nil), or the panic of an indexing expression. *)
Definition processLine (ci : customerImporter) (line : list string)
  (emailColIndex : Z) (custGrp : gmap string Z) (lineNumber : Z)
  : outcome (gmap string Z * option error) :=
  if Z.of_nat (length line) <? emailColIndex then
    Normal (custGrp, Some (fieldNotFound lineNumber))
  else
    emailField ← index line emailColIndex;
    let components := Strings.Split emailField "@" in
    if Z.of_nat (length components) =? numExpectedEmailComponents then
      component ← index components emailDomainIndex;
      let mailDomain := Strings.ToLower component in
      Normal (increment custGrp mailDomain, None)
    else
      Normal (custGrp, Some invalidEmailFormat).

(** *** sortResults *)

(** [sort.Strings]: the slice in ascending order, strings compared byte
    by byte. *)
Definition sortStrings (keys : list string) : list string :=
  merge_sort String.le keys.

(** The second loop of [sortResults], over the sorted keys. *)
Definition buildResults (custGrp : gmap string Z) (keys : list string)
  : list EmailGroup :=
  (λ domain, {| EmailDomain := domain;
                Counter := default 0 (custGrp !! domain) |}) <$> keys.

(** [sortResults] when the first loop, [for k := range custGrp], has
    visited the keys in the order [keys]: Go leaves that order open. *)
Definition sortResultsFrom (keys : list string) (custGrp : gmap string Z)
  : list EmailGroup :=
  buildResults custGrp (sortStrings keys).

(** An order in which [range custGrp] may visit the keys: each key once. *)
Definition rangeOrder (custGrp : gmap string Z) (keys : list string) : Prop :=
  keys ≡ₚ (map_to_list custGrp).*1.

(** [sortResults], ranging over the map in the order of [map_to_list]. *)
Definition sortResults (ci : customerImporter) (custGrp : gmap string Z)
  : list EmailGroup :=
  sortResultsFrom (map_to_list custGrp).*1 custGrp.

(** *** Import *)

(** [log.Printf("skip line %d: %v", lineNumber, err)] *)
Definition skipLineMsg (lineNumber : Z) (err : error) : string :=
  "skip line " +:+ Fmt.verb_d lineNumber +:+ ": " +:+ Error err.

(** What [Import] gives back: the slice ([None] for nil) and the error
    ([None] for nil), or a panic; and the log it leaves. *)
Record importResult : Type := {
  output : outcome (option (list EmailGroup) * option error);
  importLog : list string
}.

(** The reading loop of [Import], one iteration per result of [Read]. *)
Fixpoint Import_loop (ci : customerImporter) (reader : Reader)
  (emailColIndex : Z) (custGrp : gmap string Z) (lineNumber : Z)
  (log : list string) : importResult :=
  match reader with
  | [] =>
      {| output := Normal (Some (sortResults ci custGrp), None);
         importLog := log |}
  | Failure msg :: _ =>
      {| output := Normal (None, Some (ErrorString msg)); importLog := log |}
  | Fields line :: reader' =>
      match processLine ci line emailColIndex custGrp lineNumber with
      | Panics p => {| output := Panics p; importLog := log |}
      | Normal (custGrp', err) =>
          let log' := match err with
                      | Some e => log ++ [skipLineMsg lineNumber e]
                      | None => log
                      end in
          Import_loop ci reader' emailColIndex custGrp'
            (GoInt.incr lineNumber) log'
      end
  end.

Definition Import (ci : customerImporter) (reader : option Reader)
  : importResult :=
  let '((emailColIndex, err), w) := parseHeader ci reader [] in
  match err with
  | Some e => {| output := Normal (None, Some e); importLog := logged w |}
  | None => Import_loop ci (pending w) emailColIndex ∅ 2 (logged w)
  end.

(** ** Notions the properties are stated with *)


(** Every counter of the aggregation map is a Go [int]. *)
Definition countersInRange (custGrp : gmap string Z) : Prop :=
  ∀ domain n, custGrp !! domain = Some n → GoInt.InRange n.

(** The sum of the counters of a map, and of a result. *)
Definition mapTotal (custGrp : gmap string Z) : Z :=
  foldr Z.add 0 (map_to_list custGrp).*2.

Definition totalCount (results : list EmailGroup) : Z :=
  foldr Z.add 0 (Counter <$> results).

(** The email field, at column [i], splits on '@' into exactly two parts. *)
Definition validEmail (emailField : string) : bool :=
  bool_decide (length (Strings.Split emailField "@") = 2%nat).

Definition validRow (i : nat) (row : list string) : bool :=
  match row !! i with
  | Some emailField => validEmail emailField
  | None => false
  end.

(** Column [i] is the first one of the header with the configured name. *)
Definition firstColumn (header : list string) (columnName : string) (i : nat)
  : Prop :=
  header !! i = Some columnName ∧ ∀ j, (j < i)%nat → header !! j ≠ Some columnName.

(** The reader of a stream with a header and data rows, all readable. *)
Definition readerOf (header : list string) (rows : list (list string))
  : option Reader :=
  Some (Fields header :: (Fields <$> rows)).

(** The address [user@domain]. *)
Definition address (user domain : string) : string :=
  user +:+ String "@" domain.

(** What a data row adds to the aggregation map, its email being in column
    [i]: one for the lower-cased second part of an email of two parts,
    nothing otherwise. *)
Definition aggregateRow (i : nat) (custGrp : gmap string Z)
  (row : list string) : gmap string Z :=
  match row !! i with
  | Some emailField =>
      match Strings.Split emailField "@" with
      | [_; domain] => increment custGrp (Strings.ToLower domain)
      | _ => custGrp
      end
  | None => custGrp
  end.

(** The aggregation of a sequence of rows, first row first. *)
Definition aggregate (i : nat) (rows : list (list string))
  (custGrp : gmap string Z) : gmap string Z :=
  foldl (aggregateRow i) custGrp rows.

(** Go's [s1 < s2] on strings: the first byte in which they differ is
    smaller in [s1], or [s1] is a proper prefix of [s2]. *)
Fixpoint stringLess (s1 s2 : string) : bool :=
  match s1, s2 with
  | _, EmptyString => false
  | EmptyString, String _ _ => true
  | String c1 rest1, String c2 rest2 =>
      let n1 := Ascii.N_of_ascii c1 in
      let n2 := Ascii.N_of_ascii c2 in
      ((n1 <? n2) || ((n1 =? n2) && stringLess rest1 rest2))%N
  end.

(** Strict byte-wise lexicographic order on the domains of two groups. *)
Definition domainLt (g1 g2 : EmailGroup) : Prop :=
  stringLess (EmailDomain g1) (EmailDomain g2) = true.

(** Unfolding of the bounds of [int], for [lia]. *)
Ltac int_range :=
  unfold GoInt.InRange, GoInt.MinInt, GoInt.MaxInt, GoInt.bits in *; lia.



(** [sub] occurs in [s]. *)
Fixpoint contains (s sub : string) : bool :=
  String.prefix sub s
  || match s with
     | EmptyString => false
     | String _ rest => contains rest sub
     end.

(** The input of the test [TestImport], "Positive case", as the reader
    gives it: the data lines of the test are indented by four tabs, which
    stay in their first field. *)
Definition tabs : string :=
  let t := String (Ascii.ascii_of_nat 9) EmptyString in t +:+ t +:+ t +:+ t.

Definition testHeader : list string :=
  ["first_name"; "last_name"; "email"; "gender"; "ip_address"].

Definition testRows : list (list string) :=
  [ [tabs +:+ "Mildred"; "Hernandez"; "mhernandez0@github.io"; "Female"; "38.194.51.128"];
    [tabs +:+ "Norma"; "Allen"; "nallen8@cnet.com"; "Female"; "168.67.162.1"];
    [tabs +:+ "Anna"; "Rivera"; "ariverag@whitehouse.gov"; "Female"; "105.158.80.2"];
    [tabs +:+ "Lori"; "Elliott"; "lelliotth@github.io"; "Female"; "160.108.154.74"];
    [tabs +:+ "Wanda"; "Lewis"; "wlewisk@woothemes.com"; "Female"; "25.32.100.250"];
    [tabs +:+ "Robert"; "Hunter"; "rhunterp@google.fr"; "Male"; "130.35.232.64"];
    [tabs +:+ "Gregory"; "Ryan"; "gryanq@google.fr"; "Male"; "188.242.255.152"];
    [tabs +:+ "Andrew"; "Morgan"; "amorganr@google.fr"; "Male"; "3.184.160.117"];
    [tabs +:+ "Peter"; "Day"; "pdays@woothemes.com"; "Male"; "0.24.246.12"] ].

(** ** The reader of [encoding/csv] and ImportFile *)

(** One record as [encoding/csv] parses it from the stream: the line it
    starts on, its fields, and the text of the parse or I/O error if the
    reading of the record failed. *)
Record rawRecord : Type := {
  startLine : Z;
  rawFields : list string;
  parseError : option string
}.

(** The text of [ErrFieldCount] in its [ParseError]:
    "record on line %d: wrong number of fields". *)
Definition fieldCountError (line : Z) : string :=
  "record on line " +:+ Fmt.verb_d line +:+ ": wrong number of fields".

(** The results of the calls of [Read] on a [csv.Reader] over the records
    [source], its field [FieldsPerRecord] being [fieldsPerRecord]: when
    positive, a record read without error must have that many fields, or
    [Read] fails with the field count error; when zero, it is set to the
    number of fields of the record read; when negative, no check is
    made. *)
Fixpoint csvResults (fieldsPerRecord : Z) (source : list rawRecord) : Reader :=
  match source with
  | [] => []
  | rec :: source' =>
      let n := Z.of_nat (length (rawFields rec)) in
      if 0 <? fieldsPerRecord then
        match parseError rec with
        | Some msg => Failure msg
        | None =>
            if n =? fieldsPerRecord then Fields (rawFields rec)
            else Failure (fieldCountError (startLine rec))
        end :: csvResults fieldsPerRecord source'
      else
        match parseError rec with
        | Some msg => Failure msg
        | None => Fields (rawFields rec)
        end :: csvResults (if fieldsPerRecord =? 0 then n else fieldsPerRecord)
                 source'
  end.

(** [csv.NewReader]: [FieldsPerRecord] starts at 0. *)
Definition NewReader (source : list rawRecord) : Reader :=
  csvResults 0 source.

(** The file system as [ImportFile] sees it: for a file name, the reason
    why [os.Open] fails (the text of the underlying error, as in
    "no such file or directory"), or the records the csv parser reads
    from the file. *)
Definition fileSystem : Type := string → string + list rawRecord.

(** The text of the [*PathError] of a failed [os.Open]. *)
Definition openError (name reason : string) : string :=
  "open " +:+ name +:+ ": " +:+ reason.

(** [fmt.Errorf("unable to open file: %v", err)] *)
Definition unableToOpen (err : string) : error :=
  ErrorString ("unable to open file: " +:+ err).

(** What happens to file handles. *)
Inductive fileOp : Type :=
  | Opened (name : string)
  | Closed (name : string).

(** What [ImportFile] gives back, the log it leaves, and the file
    operations it has made, oldest first. *)
Record importFileResult : Type := {
  fileOutput : outcome (option (list EmailGroup) * option error);
  fileLog : list string;
  fileOps : list fileOp
}.

(** [ImportFile]. The deferred [csvFile.Close()] runs on every way out of
    the function once the file is open, a panic of [Import] included. *)
Definition ImportFile (ci : customerImporter) (fs : fileSystem)
  : importFileResult :=
  match fs (CsvFileName ci) with
  | inl reason =>
      {| fileOutput :=
           Normal (None, Some (unableToOpen (openError (CsvFileName ci) reason)));
         fileLog := [];
         fileOps := [] |}
  | inr source =>
      let imported := Import ci (Some (NewReader source)) in
      {| fileOutput :=
           '(customers, err) ← output imported;
           match err with
           | Some e => Normal (None, Some e)
           | None => Normal (customers, None)
           end;
         fileLog := importLog imported;
         fileOps := [Opened (CsvFileName ci); Closed (CsvFileName ci)] |}
  end.

(** ** Notions for the further properties *)

(** The domain a data row is counted under, its email being in column
    [i]: the lower-cased second part of an email of two parts. *)
Definition rowDomain (i : nat) (row : list string) : option string :=
  match row !! i with
  | Some emailField =>
      match Strings.Split emailField "@" with
      | [_; domain] => Some (Strings.ToLower domain)
      | _ => None
      end
  | None => None
  end.

(** How many of the rows are counted under [domain]. *)
Definition domainCount (i : nat) (domain : string) (rows : list (list string))
  : nat :=
  length (filter (λ row, rowDomain i row = Some domain) rows).

(** The error of [processLine] on a row that has not exactly [i] fields. *)
Definition lineError (i : nat) (line : list string) (lineNumber : Z)
  : option error :=
  if (length line <? i)%nat then Some (fieldNotFound lineNumber)
  else if validRow i line then None
  else Some invalidEmailFormat.

(** The log entries of the rows [rows], the first one being processed
    with the line counter at [lineNumber]. *)
Fixpoint skipLog (i : nat) (rows : list (list string)) (lineNumber : Z)
  : list string :=
  match rows with
  | [] => []
  | row :: rows' =>
      match lineError i row lineNumber with
      | Some err => [skipLineMsg lineNumber err]
      | None => []
      end ++ skipLog i rows' (GoInt.incr lineNumber)
  end.

(** A result of [Read] that is not a record of exactly [i] fields. *)
Definition notOfLength (i : nat) (res : readResult) : Prop :=
  match res with
  | Fields record => length record ≠ i
  | Failure _ => True
  end.

(** The entries of a result as pairs of a domain and its count. *)
Definition entries (results : list EmailGroup) : list (string * Z) :=
  (λ group, (EmailDomain group, Counter group)) <$> results.

(** ** ASCII strings *)

(** The test [strings.ToLower] makes for its fast path, [isASCII]: every
    byte of the string is below [utf8.RuneSelf], 128. On such a string
    [strings.ToLower] lower-cases byte by byte, as [Strings.ToLower]
    does; on the others it maps runes through the Unicode tables, which
    [Strings.ToLower] does not. *)
Fixpoint isASCII (s : string) : bool :=
  match s with
  | EmptyString => true
  | String c rest => (Ascii.N_of_ascii c <? 128)%N && isASCII rest
  end.



(** A record, the records of a reader, all of whose fields are ASCII. *)
Definition asciiRow (row : list string) : Prop :=
  Forall (λ field, isASCII field = true) row.



(** * Properties *)

(** ** Go's [int] *)

Section GoIntFacts.
Import GoInt.

Lemma wrap_InRange z : InRange (wrap z).
Proof.
  unfold InRange, wrap, MinInt, MaxInt, bits.
  pose proof (Z.mod_pos_bound (z - - 2 ^ (64 - 1)) (2 ^ 64) ltac:(lia)). lia.
Qed.

Lemma wrap_id z : InRange z → wrap z = z.
Proof.
  unfold InRange, wrap, MinInt, MaxInt, bits. intros Hz.
  rewrite Z.mod_small; lia.
Qed.

Lemma wrap_le z : MinInt ≤ z → wrap z ≤ z.
Proof.
  unfold wrap, MinInt, bits. intros Hz.
  pose proof (Z.mod_le (z - - 2 ^ (64 - 1)) (2 ^ 64) ltac:(lia) ltac:(lia)).
  lia.
Qed.

Lemma incr_InRange x : InRange (incr x).
Proof. apply wrap_InRange. Qed.

Lemma incr_no_overflow x : MinInt ≤ x < MaxInt → incr x = x + 1.
Proof.
  intros Hx. unfold incr, add. apply wrap_id. int_range.
Qed.

Lemma incr_le x : InRange x → incr x ≤ x + 1.
Proof.
  intros Hx. unfold incr, add. apply wrap_le. int_range.
Qed.
End GoIntFacts.

(** ** Package [strings] *)

Section StringsFacts.
Import Strings.

Lemma Split_length s sep : length (Split s sep) = S (Count s sep).
Proof.
  induction s as [|c rest IH]; simpl; [done|].
  destruct (Ascii.eqb c sep); simpl; [by rewrite IH|].
  destruct (Split rest sep) as [|piece pieces]; simpl in *; lia.
Qed.

Lemma Split_no_sep s sep : Count s sep = 0%nat → Split s sep = [s].
Proof.
  induction s as [|c rest IH]; simpl; [done|].
  destruct (Ascii.eqb c sep); simpl; [done|].
  intros Hrest. by rewrite (IH Hrest).
Qed.

Lemma Split_at_sep user rest sep :
  Count user sep = 0%nat →
  Split (user +:+ String sep rest) sep = user :: Split rest sep.
Proof.
  induction user as [|c user IH]; simpl.
  - intros _. by rewrite Ascii.eqb_refl.
  - destruct (Ascii.eqb c sep); simpl; [done|].
    intros Huser. by rewrite (IH Huser).
Qed.

Lemma Split_address user domain sep :
  Count user sep = 0%nat → Count domain sep = 0%nat →
  Split (user +:+ String sep domain) sep = [user; domain].
Proof.
  intros Huser Hdomain.
  by rewrite Split_at_sep, (Split_no_sep domain).
Qed.

Lemma validEmail_Count emailField :
  validEmail emailField = true ↔ Count emailField "@" = 1%nat.
Proof.
  unfold validEmail. rewrite bool_decide_eq_true, Split_length. lia.
Qed.

Lemma lowerByte_idemp c : lowerByte (lowerByte c) = lowerByte c.
Proof. by destruct c as [[] [] [] [] [] [] [] []]. Qed.

Lemma ToLower_idemp s : ToLower (ToLower s) = ToLower s.
Proof.
  induction s as [|c rest IH]; simpl; [done|].
  by rewrite lowerByte_idemp, IH.
Qed.



End StringsFacts.

(** ** The per-line step *)

Section ProcessLine.
Import Strings.
Context (ci : customerImporter).

Lemma index_lookup {A} (s : list A) (i : nat) x :
  s !! i = Some x → index s (Z.of_nat i) = Normal x.
Proof.
  intros Hx. unfold index.
  pose proof (lookup_lt_Some _ _ _ Hx) as Hlt.
  destruct (Z.ltb_spec (Z.of_nat i) 0); [lia|].
  destruct (Z.leb_spec (Z.of_nat (length s)) (Z.of_nat i)); [lia|].
  simpl. by rewrite Nat2Z.id, Hx.
Qed.

Lemma index_out_of_range {A} (s : list A) (i : Z) :
  i < 0 ∨ Z.of_nat (length s) ≤ i →
  index s i = Panics (IndexOutOfRange i (Z.of_nat (length s))).
Proof.
  intros Hi. unfold index.
  destruct (Z.ltb_spec i 0); [done|].
  destruct (Z.leb_spec (Z.of_nat (length s)) i); [done|lia].
Qed.

Lemma processLine_valid line i custGrp lineNumber emailField user domain :
  line !! i = Some emailField →
  Split emailField "@" = [user; domain] →
  processLine ci line (Z.of_nat i) custGrp lineNumber
  = Normal (increment custGrp (ToLower domain), None).
Proof.
  intros Hfield Hsplit. unfold processLine.
  pose proof (lookup_lt_Some _ _ _ Hfield) as Hlt.
  destruct (Z.ltb_spec (Z.of_nat (length line)) (Z.of_nat i)); [lia|].
  rewrite (index_lookup _ _ _ Hfield). simpl. by rewrite Hsplit.
Qed.

Lemma processLine_invalid line i custGrp lineNumber emailField :
  line !! i = Some emailField →
  length (Split emailField "@") ≠ 2%nat →
  processLine ci line (Z.of_nat i) custGrp lineNumber
  = Normal (custGrp, Some invalidEmailFormat).
Proof.
  intros Hfield Hsplit. unfold processLine.
  pose proof (lookup_lt_Some _ _ _ Hfield) as Hlt.
  destruct (Z.ltb_spec (Z.of_nat (length line)) (Z.of_nat i)); [lia|].
  rewrite (index_lookup _ _ _ Hfield). simpl.
  unfold numExpectedEmailComponents.
  destruct (Z.eqb_spec (Z.of_nat (length (Split emailField "@"))) 2); [lia|done].
Qed.

(** The step on a row that has its email field is [aggregateRow], and it
    reports an error exactly for an email that is not valid. *)
Lemma processLine_aggregateRow line i custGrp lineNumber :
  is_Some (line !! i) →
  processLine ci line (Z.of_nat i) custGrp lineNumber
  = Normal (aggregateRow i custGrp line,
            if validRow i line then None else Some invalidEmailFormat).
Proof.
  intros [emailField Hfield]. unfold aggregateRow, validRow, validEmail.
  rewrite Hfield.
  destruct (Split emailField "@") as [|user [|domain [|more rest]]] eqn:Hsplit;
    try (rewrite (processLine_invalid _ _ _ _ _ Hfield); [done|];
         by rewrite Hsplit).
  by rewrite (processLine_valid _ _ _ _ _ _ _ Hfield Hsplit).
Qed.

Lemma processLine_too_short line emailColIndex custGrp lineNumber :
  Z.of_nat (length line) < emailColIndex →
  processLine ci line emailColIndex custGrp lineNumber
  = Normal (custGrp, Some (fieldNotFound lineNumber)).
Proof.
  intros Hlen. unfold processLine.
  by destruct (Z.ltb_spec (Z.of_nat (length line)) emailColIndex); [|lia].
Qed.

(** The off-by-one of the guard: a row with exactly [emailColIndex]
    fields passes it and the indexing expression panics. *)
Lemma processLine_length_eq_index line emailColIndex custGrp lineNumber :
  Z.of_nat (length line) = emailColIndex →
  processLine ci line emailColIndex custGrp lineNumber
  = Panics (IndexOutOfRange emailColIndex emailColIndex).
Proof.
  intros Hlen. unfold processLine.
  destruct (Z.ltb_spec (Z.of_nat (length line)) emailColIndex); [lia|].
  rewrite index_out_of_range; [|lia]. by rewrite Hlen.
Qed.

(** Whatever the row, a call that returns has left the map as it was, or
    has incremented one lower-cased key. *)
Lemma processLine_cases line emailColIndex custGrp lineNumber custGrp' err :
  processLine ci line emailColIndex custGrp lineNumber = Normal (custGrp', err) →
  (custGrp' = custGrp ∧ is_Some err)
  ∨ (∃ component, custGrp' = increment custGrp (ToLower component) ∧ err = None).
Proof.
  unfold processLine.
  destruct (_ <? _); [intros [= <- <-]; left; eauto|].
  destruct (index line emailColIndex) as [emailField|]; simpl; [|done].
  destruct (_ =? _); [|intros [= <- <-]; left; eauto].
  destruct (index _ emailDomainIndex) as [component|]; simpl; [|done].
  intros [= <- <-]. right. eauto.
Qed.

Lemma increment_lookup custGrp domain :
  increment custGrp domain !! domain
  = Some (GoInt.incr (default 0 (custGrp !! domain))).
Proof. unfold increment. by rewrite lookup_insert_eq. Qed.

Lemma increment_lookup_ne custGrp domain other :
  other ≠ domain → increment custGrp domain !! other = custGrp !! other.
Proof. intros Hne. unfold increment. by rewrite lookup_insert_ne. Qed.

Lemma increment_countersInRange custGrp domain :
  countersInRange custGrp → countersInRange (increment custGrp domain).
Proof.
  intros Hrange key n. destruct (decide (key = domain)) as [->|Hne].
  - rewrite increment_lookup. intros [= <-]. apply incr_InRange.
  - rewrite increment_lookup_ne by done. apply Hrange.
Qed.
End ProcessLine.

(** ** The sorted result *)

Section SortResults.
Context (ci : customerImporter).

Lemma string_compare_refl s : String.compare s s = Eq.
Proof.
  induction s as [|c rest IH]; simpl; [done|].
  unfold Ascii.compare. by rewrite N.compare_refl.
Qed.

Lemma string_ltb_le_ne s1 s2 :
  String.ltb s1 s2 = true ↔ String.le s1 s2 ∧ s1 ≠ s2.
Proof.
  unfold String.le, String.leb, String.ltb.
  destruct (String.compare s1 s2) eqn:Hcmp; simpl.
  - apply String.compare_eq_iff in Hcmp. split; [done|]. by intros [_ Hne].
  - split; [|done]. intros _. split; [done|].
    intros ->. by rewrite string_compare_refl in Hcmp.
  - split; [done|]. by intros [Hle _].
Qed.

(** [stringLess] is the strict part of the order [sort.Strings] sorts by. *)
Lemma stringLess_ltb s1 s2 : stringLess s1 s2 = String.ltb s1 s2.
Proof.
  unfold String.ltb. revert s2.
  induction s1 as [|c1 rest1 IH]; intros [|c2 rest2]; simpl; try done.
  rewrite IH. unfold Ascii.compare.
  destruct (N.compare_spec (Ascii.N_of_ascii c1) (Ascii.N_of_ascii c2))
    as [Heq|Hlt|Hgt].
  - by rewrite Heq, N.ltb_irrefl, N.eqb_refl.
  - by rewrite (proj2 (N.ltb_lt _ _) Hlt).
  - rewrite (proj2 (N.ltb_ge _ _)) by lia.
    rewrite (proj2 (N.eqb_neq _ _)) by lia. done.
Qed.

Lemma sortStrings_Permutation keys : sortStrings keys ≡ₚ keys.
Proof. apply merge_sort_Permutation. Qed.

Lemma sortStrings_sorted keys : StronglySorted String.le (sortStrings keys).
Proof. apply StronglySorted_merge_sort; apply _. Qed.

(** The sorted slice depends on the keys, not on the order they came in. *)
Lemma sortStrings_order keys1 keys2 :
  keys1 ≡ₚ keys2 → sortStrings keys1 = sortStrings keys2.
Proof.
  intros Hperm.
  apply (StronglySorted_unique String.le); try apply sortStrings_sorted.
  by rewrite !sortStrings_Permutation.
Qed.

Lemma StronglySorted_strict (l : list string) :
  NoDup l → StronglySorted String.le l →
  StronglySorted (λ s1 s2, String.ltb s1 s2 = true) l.
Proof.
  intros Hnodup Hsorted.
  induction Hsorted as [|x l Hl IH Hx]; [constructor|].
  apply NoDup_cons in Hnodup as [Hnotin Hnodup].
  constructor; [by apply IH|].
  rewrite Forall_forall in Hx |- *. intros y Hy.
  apply string_ltb_le_ne. split; [by apply Hx|].
  intros ->. done.
Qed.

Lemma sortStrings_strict keys :
  NoDup keys →
  StronglySorted (λ s1 s2, String.ltb s1 s2 = true) (sortStrings keys).
Proof.
  intros Hnodup. apply StronglySorted_strict; [|apply sortStrings_sorted].
  by rewrite sortStrings_Permutation.
Qed.

Lemma rangeOrder_map_to_list custGrp :
  rangeOrder custGrp (map_to_list custGrp).*1.
Proof. unfold rangeOrder. reflexivity. Qed.

Lemma rangeOrder_NoDup custGrp keys : rangeOrder custGrp keys → NoDup keys.
Proof.
  unfold rangeOrder. intros ->. apply NoDup_fst_map_to_list.
Qed.

Lemma rangeOrder_elem_of custGrp keys domain :
  rangeOrder custGrp keys → domain ∈ keys ↔ is_Some (custGrp !! domain).
Proof.
  unfold rangeOrder. intros ->. rewrite list_elem_of_fmap. split.
  - intros [[k v] [-> Hin]]. apply elem_of_map_to_list in Hin. eauto.
  - intros [v Hv]. exists (domain, v). split; [done|].
    by apply elem_of_map_to_list.
Qed.

Lemma buildResults_domains custGrp keys :
  EmailDomain <$> buildResults custGrp keys = keys.
Proof.
  unfold buildResults.
  induction keys as [|k keys IH]; csimpl; [done|]. by rewrite IH.
Qed.

Lemma buildResults_counters custGrp keys :
  Counter <$> buildResults custGrp keys
  = (λ domain, default 0 (custGrp !! domain)) <$> keys.
Proof.
  unfold buildResults.
  induction keys as [|k keys IH]; csimpl; [done|]. by rewrite IH.
Qed.

Lemma sortResultsFrom_order custGrp keys :
  rangeOrder custGrp keys →
  sortResultsFrom keys custGrp = sortResults ci custGrp.
Proof.
  intros Hkeys. unfold sortResults, sortResultsFrom.
  by rewrite (sortStrings_order _ _ Hkeys).
Qed.

Lemma sortResultsFrom_sorted custGrp keys :
  rangeOrder custGrp keys →
  StronglySorted domainLt (sortResultsFrom keys custGrp).
Proof.
  intros Hkeys. unfold sortResultsFrom, buildResults.
  apply (StronglySorted_fmap _ (λ s1 s2, String.ltb s1 s2 = true)).
  { intros s1 s2 Hlt. unfold domainLt. simpl. by rewrite stringLess_ltb. }
  apply sortStrings_strict. by eapply rangeOrder_NoDup.
Qed.

Lemma sortResultsFrom_NoDup custGrp keys :
  rangeOrder custGrp keys →
  NoDup (EmailDomain <$> sortResultsFrom keys custGrp).
Proof.
  intros Hkeys. unfold sortResultsFrom. rewrite buildResults_domains.
  rewrite sortStrings_Permutation. by eapply rangeOrder_NoDup.
Qed.

(** The result lists the entries of the map, each once. *)
Lemma sortResultsFrom_elem_of custGrp keys domain count :
  rangeOrder custGrp keys →
  {| EmailDomain := domain; Counter := count |} ∈ sortResultsFrom keys custGrp
  ↔ custGrp !! domain = Some count.
Proof.
  intros Hkeys. unfold sortResultsFrom, buildResults.
  rewrite list_elem_of_fmap. split.
  - intros [k [[= -> ->] Hin]].
    rewrite sortStrings_Permutation in Hin.
    apply (rangeOrder_elem_of _ _ _ Hkeys) in Hin as [v Hv].
    by rewrite Hv.
  - intros Hlookup. exists domain. rewrite Hlookup. split; [done|].
    rewrite sortStrings_Permutation.
    apply (rangeOrder_elem_of _ _ _ Hkeys). eauto.
Qed.

Lemma foldr_add_Permutation (l1 l2 : list Z) :
  l1 ≡ₚ l2 → foldr Z.add 0 l1 = foldr Z.add 0 l2.
Proof. induction 1; simpl; lia. Qed.

Lemma map_to_list_counters (custGrp : gmap string Z) :
  (λ domain, default 0 (custGrp !! domain)) <$> (map_to_list custGrp).*1
  = (map_to_list custGrp).*2.
Proof.
  rewrite <- list_fmap_compose. apply list_fmap_ext.
  intros j [k v] Hj. simpl.
  apply list_elem_of_lookup_2, elem_of_map_to_list in Hj. by rewrite Hj.
Qed.

Lemma totalCount_sortResults custGrp :
  totalCount (sortResults ci custGrp) = mapTotal custGrp.
Proof.
  unfold totalCount, mapTotal, sortResults, sortResultsFrom.
  rewrite buildResults_counters, <- map_to_list_counters.
  apply foldr_add_Permutation.
  by rewrite sortStrings_Permutation.
Qed.

Lemma mapTotal_empty : mapTotal ∅ = 0.
Proof. unfold mapTotal. by rewrite map_to_list_empty. Qed.

Lemma mapTotal_insert_fresh (custGrp : gmap string Z) domain n :
  custGrp !! domain = None →
  mapTotal (<[domain := n]> custGrp) = n + mapTotal custGrp.
Proof.
  intros Hfresh. unfold mapTotal.
  rewrite (foldr_add_Permutation _ (n :: (map_to_list custGrp).*2)); [done|].
  by rewrite (map_to_list_insert _ _ _ Hfresh).
Qed.

Lemma mapTotal_insert (custGrp : gmap string Z) domain n :
  mapTotal (<[domain := n]> custGrp)
  = mapTotal custGrp - default 0 (custGrp !! domain) + n.
Proof.
  destruct (custGrp !! domain) as [old|] eqn:Hold; simpl.
  - rewrite <- (insert_delete_eq custGrp).
    rewrite <- (insert_delete_id custGrp domain old Hold) at 2.
    rewrite !mapTotal_insert_fresh by apply lookup_delete_eq. lia.
  - rewrite mapTotal_insert_fresh by done. lia.
Qed.

Lemma mapTotal_increment custGrp domain :
  mapTotal (increment custGrp domain)
  = mapTotal custGrp - default 0 (custGrp !! domain)
    + GoInt.incr (default 0 (custGrp !! domain)).
Proof. apply mapTotal_insert. Qed.
End SortResults.

(** ** The header *)

Section ParseHeader.
Context (ci : customerImporter).

Lemma parseHeader_loop_first header columnName i k :
  firstColumn header columnName i →
  parseHeader_loop header columnName k = Some (k + Z.of_nat i).
Proof.
  revert i k. induction header as [|colName header IH]; intros i k [Hi Hfirst].
  - by rewrite lookup_nil in Hi.
  - simpl. destruct i as [|i].
    + simpl in Hi. injection Hi as ->.
      rewrite String.eqb_refl. f_equal. lia.
    + destruct (String.eqb_spec colName columnName) as [->|_].
      { by destruct (Hfirst 0%nat ltac:(lia)). }
      rewrite (IH i (k + 1)); [f_equal; lia|].
      split; [done|]. intros j Hj. apply (Hfirst (S j)). lia.
Qed.

Lemma parseHeader_loop_missing header columnName k :
  columnName ∉ header → parseHeader_loop header columnName k = None.
Proof.
  revert k. induction header as [|colName header IH]; intros k Hnotin; [done|].
  simpl. apply not_elem_of_cons in Hnotin as [Hne Hnotin].
  destruct (String.eqb_spec colName columnName) as [->|_]; [done|].
  by apply IH.
Qed.

Lemma parseHeader_loop_found header columnName k emailColIndex :
  parseHeader_loop header columnName k = Some emailColIndex →
  ∃ i, emailColIndex = k + Z.of_nat i ∧ firstColumn header columnName i.
Proof.
  revert k. induction header as [|colName header IH]; intros k; [done|].
  simpl. destruct (String.eqb_spec colName columnName) as [->|Hne].
  - intros [= <-]. exists 0%nat. split; [lia|]. split; [done|]. lia.
  - intros Hfound. destruct (IH _ Hfound) as (i & -> & Hi & Hfirst).
    exists (S i). split; [lia|]. split; [done|].
    intros [|j] Hj; simpl; [congruence|]. apply Hfirst. lia.
Qed.

(** A header that has the column has a first column of that name. *)
Lemma firstColumn_exists header columnName :
  columnName ∈ header → ∃ i, firstColumn header columnName i.
Proof.
  induction header as [|colName header IH]; [by intros ?%elem_of_nil|].
  destruct (decide (colName = columnName)) as [->|Hne].
  - intros _. exists 0%nat. split; [done|]. lia.
  - intros [?|Hin]%elem_of_cons; [done|].
    destruct (IH Hin) as (i & Hi & Hfirst). exists (S i). split; [done|].
    intros [|j] Hj; simpl; [congruence|]. apply Hfirst. lia.
Qed.

(** With the column in the header, [Import] enters its loop with the
    column's index, an empty map, line 2 and an empty log. *)
Lemma Import_enters_loop header reader i :
  firstColumn header (EmailColumnName ci) i →
  Import ci (Some (Fields header :: reader))
  = Import_loop ci reader (Z.of_nat i) ∅ 2 [].
Proof.
  intros Hfirst. unfold Import, parseHeader. simpl.
  by rewrite (parseHeader_loop_first _ _ _ 0 Hfirst).
Qed.

(** Without it, [Import] returns no slice, and the error and the log
    entry are the message after [fmt] has read it as a format. *)
Lemma Import_missing_column header reader :
  EmailColumnName ci ∉ header →
  Import ci (Some (Fields header :: reader))
  = {| output := Normal (None, Some (Fmt.Errorf0
                               (missingColumnMsg (EmailColumnName ci))));
       importLog := [Fmt.Sprintf0 (missingColumnMsg (EmailColumnName ci))] |}.
Proof.
  intros Hmissing. unfold Import, parseHeader. simpl.
  by rewrite (parseHeader_loop_missing _ _ 0 Hmissing).
Qed.

(** An [Import] that returns a slice has read a header with the column
    and has run its loop on the rest of the reader. *)
Lemma Import_success reader results err :
  output (Import ci reader) = Normal (Some results, err) →
  ∃ header rest i,
    reader = Some (Fields header :: rest)
    ∧ firstColumn header (EmailColumnName ci) i
    ∧ output (Import_loop ci rest (Z.of_nat i) ∅ 2 []) = Normal (Some results, err).
Proof.
  unfold Import, parseHeader.
  destruct reader as [[|[header|msg] rest]|]; simpl; try done.
  destruct (parseHeader_loop header (EmailColumnName ci) 0)
    as [emailColIndex|] eqn:Hloop; simpl; [|done].
  apply parseHeader_loop_found in Hloop as (i & -> & Hfirst).
  intros Hout. exists header, rest, i. by rewrite Z.add_0_l in Hout.
Qed.

Lemma noOperands_plain s :
  Strings.Count s "%" = 0%nat → Fmt.noOperands false s = s.
Proof.
  induction s as [|c rest IH]; simpl; [done|].
  destruct (Ascii.eqb c "%"); simpl; [done|].
  intros Hrest. by rewrite (IH Hrest).
Qed.
End ParseHeader.

(** ** The reading loop *)

Section ImportLoop.
Context (ci : customerImporter) (i : nat).

Lemma Import_loop_output rows custGrp lineNumber log :
  Forall (λ row, is_Some (row !! i)) rows →
  output (Import_loop ci (Fields <$> rows) (Z.of_nat i) custGrp lineNumber log)
  = Normal (Some (sortResults ci (aggregate i rows custGrp)), None).
Proof.
  intros Hrows. revert custGrp lineNumber log.
  induction Hrows as [|row rows Hrow Hrows IH]; intros custGrp lineNumber log;
    [done|].
  csimpl. rewrite (processLine_aggregateRow _ _ _ _ _ Hrow). apply IH.
Qed.

Lemma aggregateRow_invalid custGrp row :
  validRow i row = false → aggregateRow i custGrp row = custGrp.
Proof.
  unfold validRow, validEmail, aggregateRow.
  destruct (row !! i) as [emailField|]; [|done].
  rewrite bool_decide_eq_false.
  by destruct (Strings.Split emailField "@") as [|user [|domain [|more rest]]].
Qed.

(** Only the rows with a valid email count. *)
Lemma aggregate_filter rows custGrp :
  aggregate i rows custGrp = aggregate i (filter (λ row, validRow i row) rows) custGrp.
Proof.
  unfold aggregate. revert custGrp.
  induction rows as [|row rows IH]; intros custGrp; [done|].
  rewrite filter_cons. simpl. destruct (validRow i row) eqn:Hvalid; simpl.
  - apply IH.
  - rewrite aggregateRow_invalid by done. apply IH.
Qed.

Lemma aggregateRow_valid custGrp row :
  validRow i row = true →
  ∃ domain, aggregateRow i custGrp row = increment custGrp domain.
Proof.
  unfold validRow, validEmail, aggregateRow.
  destruct (row !! i) as [emailField|]; [|done].
  rewrite bool_decide_eq_true.
  destruct (Strings.Split emailField "@") as [|user [|domain [|more rest]]];
    try done.
  eauto.
Qed.

(** While no counter overflows, each valid row adds one to the sum of
    the counters; [bound] is the largest counter that may be present. *)
Lemma aggregate_total rows custGrp bound :
  (∀ domain n, custGrp !! domain = Some n → 0 ≤ n ≤ bound) →
  0 ≤ bound →
  bound + Z.of_nat (length (filter (λ row, validRow i row) rows)) ≤ GoInt.MaxInt →
  mapTotal (aggregate i rows custGrp)
  = mapTotal custGrp + Z.of_nat (length (filter (λ row, validRow i row) rows)).
Proof.
  unfold aggregate. revert custGrp bound.
  induction rows as [|row rows IH]; intros custGrp bound Hcounters Hbound Hmax.
  { simpl. lia. }
  rewrite filter_cons in Hmax |- *. simpl.
  destruct (validRow i row) eqn:Hvalid; simpl in *.
  - destruct (aggregateRow_valid custGrp row Hvalid) as [domain ->].
    assert (0 ≤ default 0 (custGrp !! domain) ≤ bound) as Hold.
    { destruct (custGrp !! domain) as [old|] eqn:Hlookup; simpl; [eauto|lia]. }
    assert (GoInt.incr (default 0 (custGrp !! domain))
            = default 0 (custGrp !! domain) + 1) as Hincr.
    { apply incr_no_overflow. int_range. }
    rewrite (IH _ (bound + 1)); [|idtac|lia|lia].
    + rewrite mapTotal_increment, Hincr. lia.
    + intros key n. destruct (decide (key = domain)) as [->|Hne].
      * rewrite increment_lookup, Hincr. intros [= <-]. lia.
      * rewrite increment_lookup_ne by done. intros Hn.
        specialize (Hcounters _ _ Hn). lia.
  - rewrite aggregateRow_invalid by done. by apply (IH _ bound).
Qed.

End ImportLoop.

(** *** Invariants of the loop *)

Section ImportInvariant.
Context (ci : customerImporter) (emailColIndex : Z).
Context (P : nat → gmap string Z → Prop).
Hypothesis step : ∀ k line custGrp lineNumber custGrp' err,
  P k custGrp →
  processLine ci line emailColIndex custGrp lineNumber = Normal (custGrp', err) →
  P (S k) custGrp'.

(** A property of the map and of the count of rows processed that each
    call of [processLine] carries forward holds of the map that a
    successful loop sorts; such a loop has processed all of its reader. *)
Lemma Import_loop_invariant reader custGrp lineNumber log k results err :
  P k custGrp →
  output (Import_loop ci reader emailColIndex custGrp lineNumber log)
  = Normal (Some results, err) →
  ∃ final,
    P (k + length reader)%nat final
    ∧ results = sortResults ci final ∧ err = None.
Proof.
  revert custGrp lineNumber log k.
  induction reader as [|[line|msg] reader IH];
    intros custGrp lineNumber log k HP; simpl.
  - intros [= <- <-]. exists custGrp. by rewrite Nat.add_0_r.
  - destruct (processLine ci line emailColIndex custGrp lineNumber)
      as [[custGrp' err']|p] eqn:Hstep; simpl; [|done].
    intros Hout. apply IH with (k := S k) in Hout; [|by eapply step].
    destruct Hout as (final & Hfinal & -> & ->).
    exists final. by rewrite <- Nat.add_succ_comm.
  - done.
Qed.
End ImportInvariant.

(** ** ASCII strings and their lower-casing *)

Section AsciiFacts.
Import Strings.











End AsciiFacts.

(** * The claims *)

(** ** C1: the email format check of processLine *)




(** ** C2: the keys of the aggregation map *)




(** ** C3: the guard of processLine *)

(** C3 fails on the code by one: the guard is [len(line) < emailColIndex],
    so a record with exactly [emailColIndex] fields, where the email field
    is absent, passes it and [line[emailColIndex]] panics with an index
    out of range; [Import] panics with it. *)
Theorem processLine_guard_off_by_one :
  processLine New ["Dennis"; "Henry"] 2 ∅ 3 = Panics (IndexOutOfRange 2 2)
  ∧ output (Import New (Some
       [ Fields ["first_name"; "last_name"; "email"];
         Fields ["Mildred"; "Hernandez"; "mhernandez0@github.io"];
         Fields ["Dennis"; "Henry"] ]))
    = Panics (IndexOutOfRange 2 2).
Proof. split; by vm_compute. Qed.

(** ** C4: the sum of the counters *)

Section WellFormedInput.
Context (ci : customerImporter) (header : list string)
  (rows : list (list string)) (i : nat).
Hypothesis column : firstColumn header (EmailColumnName ci) i.
Hypothesis fieldCounts : Forall (λ row, length row = length header) rows.

Lemma rows_have_email : Forall (λ row, is_Some (row !! i)) rows.
Proof.
  destruct column as [Hi _]. apply lookup_lt_Some in Hi.
  eapply Forall_impl; [exact fieldCounts|].
  intros row Hlen. apply lookup_lt_is_Some. simpl in Hlen. lia.
Qed.

Lemma Import_well_formed_output :
  output (Import ci (readerOf header rows))
  = Normal (Some (sortResults ci (aggregate i rows ∅)), None).
Proof.
  unfold readerOf. rewrite (Import_enters_loop _ _ _ _ column).
  apply Import_loop_output, rows_have_email.
Qed.

End WellFormedInput.

(** C4. For every well-formed input (the header has the configured
    column, every data row has as many fields as the header), [Import]
    returns a sequence, and with at most [MaxInt] data rows, so that no
    counter of type [int] wraps around, its counters sum to the number of
    data rows whose email field splits on '@' into exactly two parts. For
    every input, the sum of the counters of a returned sequence is at
    most the number of data rows read. *)
Theorem Import_total_count :
  (∀ ci header rows i,
     firstColumn header (EmailColumnName ci) i →
     Forall (λ row, length row = length header) rows →
     ∃ results,
       output (Import ci (readerOf header rows)) = Normal (Some results, None)
       ∧ (Z.of_nat (length rows) ≤ GoInt.MaxInt →
          totalCount results
          = Z.of_nat (length (filter (λ row, validRow i row) rows))))
  ∧ (∀ ci reader results err,
       output (Import ci (Some reader)) = Normal (Some results, err) →
       totalCount results ≤ Z.of_nat (length reader) - 1).
Proof.
  split.
  - intros ci header rows i Hcolumn Hcounts.
    exists (sortResults ci (aggregate i rows ∅)).
    split; [by apply Import_well_formed_output|].
    intros Hbound. rewrite totalCount_sortResults.
    rewrite (aggregate_total i rows ∅ 0), mapTotal_empty; [lia| |lia|].
    + intros domain n Hn. by rewrite lookup_empty in Hn.
    + pose proof (length_filter (λ row, validRow i row) rows). lia.
  - intros ci reader results err Hout.
    apply Import_success in Hout as (header & rest & i & [= ->] & _ & Hout).
    apply (Import_loop_invariant ci (Z.of_nat i)
             (λ k custGrp, countersInRange custGrp ∧ mapTotal custGrp ≤ Z.of_nat k))
      with (k := 0%nat) in Hout.
    + destruct Hout as (final & [_ Htotal] & -> & _).
      rewrite totalCount_sortResults. simpl in *. lia.
    + intros k line custGrp lineNumber custGrp' err' [Hrange Htotal] Hcall.
      destruct (processLine_cases _ _ _ _ _ _ _ Hcall)
        as [[-> _]|(component & -> & _)]; [split; [done|lia]|].
      split; [by apply increment_countersInRange|].
      rewrite mapTotal_increment.
      assert (GoInt.InRange (default 0 (custGrp !! Strings.ToLower component)))
        as Hold.
      { destruct (custGrp !! _) as [old|] eqn:Hlookup; simpl; [by eapply Hrange|].
        int_range. }
      pose proof (incr_le _ Hold). lia.
    + split; [|by rewrite mapTotal_empty].
      intros domain n Hn. by rewrite lookup_empty in Hn.
Qed.

Lemma Import_total_count_witness :
  firstColumn testHeader (EmailColumnName New) 2
  ∧ Forall (λ row, length row = length testHeader) testRows
  ∧ Z.of_nat (length testRows) ≤ GoInt.MaxInt
  ∧ ∃ results,
      output (Import New (readerOf testHeader testRows)) = Normal (Some results, None)
      ∧ totalCount results = 9.
Proof.
  assert (firstColumn testHeader (EmailColumnName New) 2) as Hcolumn.
  { split; [reflexivity|]. intros [|[|j]] Hj; [discriminate|discriminate|lia]. }
  assert (Forall (λ row, length row = length testHeader) testRows) as Hcounts.
  { repeat constructor. }
  assert (Z.of_nat (length testRows) ≤ GoInt.MaxInt) as Hbound.
  { vm_compute. discriminate. }
  split; [exact Hcolumn|]. split; [exact Hcounts|]. split; [exact Hbound|].
  destruct (proj1 Import_total_count New testHeader testRows 2%nat Hcolumn Hcounts)
    as (results & Hout & Htotal).
  exists results. split; [exact Hout|exact (Htotal Hbound)].
Defined.

(** ** C5: the order of the result *)

(** C5. For every aggregation map, whatever the order in which the keys
    are ranged over, the sequence [sortResults] returns is strictly
    ascending by [EmailDomain] for the byte-wise lexicographic order, has
    no domain twice, lists exactly the entries of the map and is the same
    for every such order; the order of insertion into the map does not
    show; and every sequence returned by [Import] is strictly ascending
    and free of duplicates. *)
Theorem sortResults_strictly_ascending :
  (∀ ci custGrp keys,
     rangeOrder custGrp keys →
     let results := sortResultsFrom keys custGrp in
     StronglySorted domainLt results
     ∧ NoDup (EmailDomain <$> results)
     ∧ (∀ domain count,
          {| EmailDomain := domain; Counter := count |} ∈ results
          ↔ custGrp !! domain = Some count)
     ∧ results = sortResults ci custGrp)
  ∧ (∀ ci (custGrp : gmap string Z) domain1 count1 domain2 count2,
       domain1 ≠ domain2 →
       sortResults ci (<[domain1 := count1]> (<[domain2 := count2]> custGrp))
       = sortResults ci (<[domain2 := count2]> (<[domain1 := count1]> custGrp)))
  ∧ (∀ ci reader results err,
       output (Import ci reader) = Normal (Some results, err) →
       StronglySorted domainLt results ∧ NoDup (EmailDomain <$> results)).
Proof.
  split; [|split].
  - intros ci custGrp keys Hkeys results. subst results.
    split; [by apply sortResultsFrom_sorted|].
    split; [by apply sortResultsFrom_NoDup|].
    split; [intros; by apply sortResultsFrom_elem_of|].
    by apply sortResultsFrom_order.
  - intros ci custGrp domain1 count1 domain2 count2 Hne.
    by rewrite insert_insert_ne.
  - intros ci reader results err Hout.
    apply Import_success in Hout as (header & rest & i & -> & _ & Hout).
    apply (Import_loop_invariant ci (Z.of_nat i) (λ _ _, True))
      with (k := 0%nat) in Hout; [|done..].
    destruct Hout as (final & _ & -> & _).
    split; [apply sortResultsFrom_sorted|apply sortResultsFrom_NoDup];
      apply rangeOrder_map_to_list.
Qed.

Lemma sortResults_strictly_ascending_witness :
  let custGrp : gmap string Z := {[ "github.io" := 2; "cnet.com" := 1 ]} in
  rangeOrder custGrp ["github.io"; "cnet.com"]
  ∧ sortResultsFrom ["github.io"; "cnet.com"] custGrp = sortResults New custGrp
  ∧ StronglySorted domainLt (sortResultsFrom ["github.io"; "cnet.com"] custGrp).
Proof.
  intros custGrp.
  assert (rangeOrder custGrp ["github.io"; "cnet.com"]) as Hkeys.
  { unfold rangeOrder. vm_compute. first [apply perm_swap|reflexivity]. }
  split; [exact Hkeys|].
  destruct (proj1 sortResults_strictly_ascending New custGrp _ Hkeys)
    as (Hsorted & _ & _ & Horder).
  split; [exact Horder|exact Hsorted].
Defined.

(** ** C6: letter case of the domain *)





(** ** C7: the line number of a skipped row *)

(** C7 fails on the code where a record does not sit on the line of its
    rank: [lineNumber] is incremented once per record read, and
    [encoding/csv] skips empty lines. The file here has its header on
    line 1, a record on line 2, an empty line 3 and a record with a
    malformed email on line 4. [Import] does skip that row and returns the
    aggregation of the other one, but the log entry says line 3. *)
Theorem Import_skip_line_counts_records :
  let malformed :=
    {| startLine := 4; rawFields := ["Dennis"; "Henry"; "dhenry2"];
       parseError := None |} in
  let source :=
    [ {| startLine := 1; rawFields := ["first_name"; "last_name"; "email"];
         parseError := None |};
      {| startLine := 2;
         rawFields := ["Mildred"; "Hernandez"; "mhernandez0@github.io"];
         parseError := None |};
      malformed ] in
  Import New (Some (NewReader source))
  = {| output := Normal (Some [ {| EmailDomain := "github.io"; Counter := 1 |} ],
                         None);
       importLog := ["skip line 3: invalid email format"] |}
  ∧ startLine malformed = 4.
Proof. split; by vm_compute. Qed.

(** ** C8: a header without the column *)

Lemma Count_append s1 s2 sep :
  Strings.Count (s1 +:+ s2) sep
  = (Strings.Count s1 sep + Strings.Count s2 sep)%nat.
Proof.
  induction s1 as [|c rest IH]; [done|].
  change (String c rest +:+ s2) with (String c (rest +:+ s2)).
  simpl. rewrite IH. lia.
Qed.

(** For a column name without '%', the error of a header that lacks it
    is the message with the name in it, no slice is returned, and the log
    has the same message. *)
Lemma Import_missing_column_plain ci header reader :
  EmailColumnName ci ∉ header →
  Strings.Count (EmailColumnName ci) "%" = 0%nat →
  Import ci (Some (Fields header :: reader))
  = {| output := Normal (None, Some (ErrorString
         ("missing column name '" +:+ EmailColumnName ci
          +:+ "' in the first line of the file")));
       importLog := ["missing column name '" +:+ EmailColumnName ci
                     +:+ "' in the first line of the file"] |}.
Proof.
  intros Hmissing Hplain. rewrite Import_missing_column by done.
  unfold Fmt.Errorf0, Fmt.Sprintf0. rewrite noOperands_plain; [done|].
  unfold missingColumnMsg. rewrite !Count_append, Hplain. reflexivity.
Qed.

(** C8 fails on the code for a column name with a '%' in it: the message
    that names the column is handed to [fmt.Errorf] (and [log.Printf]) as
    the format string, so "%m" is read as a verb without operand. With the
    column name "e%mail" and a header without it, [Import] returns no
    slice and an error, but the text of the error does not have the name
    of the column in it. *)
Theorem Import_missing_column_percent :
  let ci := SetEmailColumnName New "e%mail" in
  (EmailColumnName ci ∉ testHeader)
  ∧ Import ci (readerOf testHeader testRows)
    = {| output := Normal (None, Some (ErrorString
           "missing column name 'e%!m(MISSING)ail' in the first line of the file"));
         importLog :=
           ["missing column name 'e%!m(MISSING)ail' in the first line of the file"] |}
  ∧ contains
      "missing column name 'e%!m(MISSING)ail' in the first line of the file"
      (EmailColumnName ci) = false.
Proof.
  intros ci. split; [|split; by vm_compute].
  unfold testHeader. simpl. rewrite !not_elem_of_cons.
  repeat split; try discriminate. apply not_elem_of_nil.
Qed.

(** ** C9: the positive case of the test *)

(** C9. On the input of the test, header
    first_name,last_name,email,gender,ip_address and nine data rows with
    the domains github.io twice, cnet.com once, whitehouse.gov once,
    woothemes.com twice and google.fr three times, [Import] returns
    exactly cnet.com 1, github.io 2, google.fr 3, whitehouse.gov 1,
    woothemes.com 2, in this order, with no error and nothing logged. *)
Theorem Import_test_positive_case :
  Import New (readerOf testHeader testRows)
  = {| output := Normal
         (Some [ {| EmailDomain := "cnet.com"; Counter := 1 |};
                 {| EmailDomain := "github.io"; Counter := 2 |};
                 {| EmailDomain := "google.fr"; Counter := 3 |};
                 {| EmailDomain := "whitehouse.gov"; Counter := 1 |};
                 {| EmailDomain := "woothemes.com"; Counter := 2 |} ], None);
       importLog := [] |}.
Proof. by vm_compute. Qed.

(** ** C10: the setters *)

Lemma Import_loop_importer ci1 ci2 reader emailColIndex custGrp lineNumber log :
  Import_loop ci1 reader emailColIndex custGrp lineNumber log
  = Import_loop ci2 reader emailColIndex custGrp lineNumber log.
Proof.
  revert custGrp lineNumber log.
  induction reader as [|[line|msg] reader IH]; intros custGrp lineNumber log;
    simpl; [done| |done].
  change (processLine ci1 line emailColIndex custGrp lineNumber)
    with (processLine ci2 line emailColIndex custGrp lineNumber).
  destruct (processLine ci2 line emailColIndex custGrp lineNumber)
    as [[custGrp' err]|p]; [apply IH|done].
Qed.

(** [Import] reads one field of its receiver, the name of the column. *)
Lemma Import_column_name ci1 ci2 reader :
  EmailColumnName ci1 = EmailColumnName ci2 →
  Import ci1 reader = Import ci2 reader.
Proof.
  intros Hname. unfold Import, parseHeader. rewrite Hname.
  destruct reader as [[|[header|msg] rest]|]; simpl; try done.
  destruct (parseHeader_loop header (EmailColumnName ci2) 0); simpl; [|done].
  apply Import_loop_importer.
Qed.

(** C10. [SetCsvFileName] sets [CsvFileName] and leaves
    [EmailColumnName] as it was; [SetEmailColumnName] sets
    [EmailColumnName] and leaves [CsvFileName] as it was; and for any
    reader, what [Import] returns and logs does not depend on
    [CsvFileName]. *)
Theorem setters_change_their_own_field :
  (∀ ci fileName,
     CsvFileName (SetCsvFileName ci fileName) = fileName
     ∧ EmailColumnName (SetCsvFileName ci fileName) = EmailColumnName ci)
  ∧ (∀ ci columnName,
       EmailColumnName (SetEmailColumnName ci columnName) = columnName
       ∧ CsvFileName (SetEmailColumnName ci columnName) = CsvFileName ci)
  ∧ (∀ ci fileName reader,
       Import (SetCsvFileName ci fileName) reader = Import ci reader)
  ∧ (∀ fileName1 fileName2 columnName reader,
       Import {| CsvFileName := fileName1; EmailColumnName := columnName |} reader
       = Import {| CsvFileName := fileName2; EmailColumnName := columnName |} reader).
Proof.
  split; [done|]. split; [done|]. split.
  - intros ci fileName reader. by apply Import_column_name.
  - intros fileName1 fileName2 columnName reader. by apply Import_column_name.
Qed.


(** * Further properties of the importer *)

(** ** The step and the loop on records of any length *)

Section AnyLength.
Context (ci : customerImporter) (i : nat).

Lemma aggregateRow_rowDomain custGrp row :
  aggregateRow i custGrp row
  = match rowDomain i row with
    | Some domain => increment custGrp domain
    | None => custGrp
    end.
Proof.
  unfold aggregateRow, rowDomain.
  destruct (row !! i) as [emailField|]; [|done].
  by destruct (Strings.Split emailField "@") as [|user [|domain [|more rest]]].
Qed.

Lemma validRow_rowDomain row :
  validRow i row = true ↔ is_Some (rowDomain i row).
Proof.
  unfold validRow, validEmail, rowDomain.
  destruct (row !! i) as [emailField|]; [|split; [done|by intros [? ?]]].
  rewrite bool_decide_eq_true.
  destruct (Strings.Split emailField "@") as [|user [|domain [|more rest]]];
    simpl; split; try done; try (by intros [? ?]); eauto.
Qed.

(** A row of fewer or of more than [i] fields never panics: the map moves
    by [aggregateRow] and the error is [lineError]. *)
Lemma processLine_no_panic line custGrp lineNumber :
  length line ≠ i →
  processLine ci line (Z.of_nat i) custGrp lineNumber
  = Normal (aggregateRow i custGrp line, lineError i line lineNumber).
Proof.
  intros Hlen. unfold lineError.
  destruct (Nat.ltb_spec (length line) i) as [Hshort|Hlong].
  - rewrite processLine_too_short by lia.
    unfold aggregateRow. by rewrite lookup_ge_None_2 by lia.
  - apply processLine_aggregateRow, lookup_lt_is_Some. lia.
Qed.

(** The loop runs through any leading records without exactly [i]
    fields, whatever comes after them. *)
Lemma Import_loop_prefix rows tail custGrp lineNumber log :
  Forall (λ row, length row ≠ i) rows →
  Import_loop ci ((Fields <$> rows) ++ tail) (Z.of_nat i) custGrp lineNumber log
  = Import_loop ci tail (Z.of_nat i) (aggregate i rows custGrp)
      (Nat.iter (length rows) GoInt.incr lineNumber)
      (log ++ skipLog i rows lineNumber).
Proof.
  intros Hrows. revert custGrp lineNumber log.
  induction Hrows as [|row rows Hrow Hrows IH]; intros custGrp lineNumber log.
  { simpl. by rewrite app_nil_r. }
  cbn [fmap list_fmap app Import_loop length skipLog].
  rewrite (processLine_no_panic _ _ _ Hrow), IH, Nat.iter_succ_r.
  unfold aggregate. simpl.
  destruct (lineError i row lineNumber); simpl; [|done].
  by rewrite <- app_assoc.
Qed.

(** A loop that returns gives a slice and no error, or no slice and the
    error of a failed [Read]. *)
Lemma Import_loop_returns reader emailColIndex custGrp lineNumber log results err :
  output (Import_loop ci reader emailColIndex custGrp lineNumber log)
  = Normal (results, err) →
  (∃ final, results = Some (sortResults ci final) ∧ err = None)
  ∨ (∃ msg, results = None ∧ err = Some (ErrorString msg)).
Proof.
  revert custGrp lineNumber log.
  induction reader as [|[line|msg] reader IH]; intros custGrp lineNumber log;
    simpl.
  - intros [= <- <-]. left. eauto.
  - destruct (processLine ci line emailColIndex custGrp lineNumber)
      as [[custGrp' err']|p]; [apply IH|done].
  - intros [= <- <-]. right. eauto.
Qed.

Lemma Import_loop_no_panic reader custGrp lineNumber log :
  Forall (notOfLength i) reader →
  ∃ results err,
    output (Import_loop ci reader (Z.of_nat i) custGrp lineNumber log)
    = Normal (results, err).
Proof.
  intros Hreader. revert custGrp lineNumber log.
  induction Hreader as [|[line|msg] reader Hres Hreader IH];
    intros custGrp lineNumber log; simpl; [eauto| |eauto].
  rewrite (processLine_no_panic _ _ _ Hres). apply IH.
Qed.

Lemma Import_loop_panic reader custGrp lineNumber log p :
  output (Import_loop ci reader (Z.of_nat i) custGrp lineNumber log) = Panics p →
  ∃ rows row tail,
    reader = (Fields <$> rows) ++ Fields row :: tail
    ∧ Forall (λ row, length row ≠ i) rows ∧ length row = i
    ∧ p = IndexOutOfRange (Z.of_nat i) (Z.of_nat i).
Proof.
  revert custGrp lineNumber log.
  induction reader as [|[line|msg] reader IH]; intros custGrp lineNumber log;
    simpl; [done| |done].
  destruct (decide (length line = i)) as [Hlen|Hlen].
  - rewrite processLine_length_eq_index by lia. simpl. intros [= <-].
    exists [], line, reader. split; [done|]. split; [constructor|]. by split.
  - rewrite (processLine_no_panic _ _ _ Hlen). intros Hpanic.
    destruct (IH _ _ _ Hpanic) as (rows & row & tail & -> & Hrows & Hrow & ->).
    exists (line :: rows), row, tail.
    split; [done|]. split; [by constructor|]. by split.
Qed.
End AnyLength.

(** ** parseHeader *)

Lemma parseHeader_loop_None header columnName k :
  parseHeader_loop header columnName k = None → columnName ∉ header.
Proof.
  intros Hnone Hin. destruct (firstColumn_exists _ _ Hin) as [i Hfirst].
  by rewrite (parseHeader_loop_first _ _ _ k Hfirst) in Hnone.
Qed.

(** X1. When [parseHeader] returns no error, the reader has given a
    header, the index returned is the position of the first column of
    that header whose name is exactly the configured one, it is within
    the header, one record has been read and nothing logged. When it
    returns an error, the index is -1 and the header read, if any, has no
    column of that name. *)
Theorem parseHeader_first_column ci reader log emailColIndex err w :
  parseHeader ci reader log = ((emailColIndex, err), w) →
  (err = None →
     ∃ header rest i,
       reader = Some (Fields header :: rest)
       ∧ emailColIndex = Z.of_nat i ∧ (i < length header)%nat
       ∧ firstColumn header (EmailColumnName ci) i
       ∧ pending w = rest ∧ logged w = log)
  ∧ (is_Some err →
       emailColIndex = -1
       ∧ ∀ header rest,
           reader = Some (Fields header :: rest) →
           EmailColumnName ci ∉ header).
Proof.
  unfold parseHeader.
  destruct reader as [[|[header|msg] rest]|]; simpl;
    try (intros [= <- <- <-]; split; [done|]; intros _; split; [done|];
         intros header' rest' [=]).
  destruct (parseHeader_loop header (EmailColumnName ci) 0) as [index|] eqn:Hloop;
    intros [= <- <- <-].
  - split; [|by intros [? ?]]. intros _.
    apply parseHeader_loop_found in Hloop as (i & -> & Hfirst).
    exists header, rest, i. split; [done|]. split; [lia|].
    split; [by eapply lookup_lt_Some, Hfirst|]. done.
  - split; [done|]. intros _. split; [done|].
    intros header' rest' [= <- <-]. by eapply parseHeader_loop_None.
Qed.

Lemma parseHeader_first_column_witness :
  parseHeader New (Some [Fields ["name"; "email"; "email"]; Fields ["a"; "b@c"; "d@e"]]) []
  = ((1, None), {| pending := [Fields ["a"; "b@c"; "d@e"]]; logged := [] |})
  ∧ firstColumn ["name"; "email"; "email"] (EmailColumnName New) 1.
Proof.
  assert (parseHeader New
            (Some [Fields ["name"; "email"; "email"]; Fields ["a"; "b@c"; "d@e"]]) []
          = ((1, None), {| pending := [Fields ["a"; "b@c"; "d@e"]]; logged := [] |}))
    as Hcall by reflexivity.
  split; [exact Hcall|].
  destruct (proj1 (parseHeader_first_column _ _ _ _ _ _ Hcall) eq_refl)
    as (header & rest & i & Hreader & Hindex & _ & Hfirst & _).
  injection Hreader as <- _.
  assert (i = 1%nat) as -> by lia. exact Hfirst.
Defined.

(** ** What Import returns *)

(** X2. Whenever [Import] returns, it returns a slice or an error, never
    both and never neither; and the error is [io.EOF] exactly when the
    reader had nothing at all to read, not even a header. *)
Theorem Import_slice_xor_error ci reader results err :
  output (Import ci reader) = Normal (results, err) →
  (results = None ↔ is_Some err) ∧ (err = Some EOF ↔ reader = Some []).
Proof.
  unfold Import, parseHeader.
  destruct reader as [[|[header|msg] rest]|]; simpl.
  - intros [= <- <-]. split; (split; [first [done|eauto]|done]).
  - destruct (parseHeader_loop header (EmailColumnName ci) 0) as [index|];
      simpl.
    + intros Hout.
      destruct (Import_loop_returns _ _ _ _ _ _ _ _ Hout)
        as [(final & -> & ->)|(msg & -> & ->)].
      * split; (split; [done|]); [by intros [? ?]|done].
      * split; (split; [first [done|eauto]|done]).
    + intros [= <- <-]. split; (split; [first [done|eauto]|done]).
  - intros [= <- <-]. split; (split; [first [done|eauto]|done]).
  - intros [= <- <-]. split; (split; [first [done|eauto]|done]).
Qed.

Lemma Import_slice_xor_error_witness :
  output (Import New (Some [])) = Normal (None, Some EOF)
  ∧ (@None (list EmailGroup) = None ↔ is_Some (Some EOF))
  ∧ (Some EOF = Some EOF ↔ Some ([] : Reader) = Some []).
Proof.
  assert (output (Import New (Some [])) = Normal (None, Some EOF)) as Hout
    by reflexivity.
  split; [exact Hout|]. exact (Import_slice_xor_error _ _ _ _ Hout).
Defined.

(** X3. A failure of [Read] on a data record is fatal: after a header
    with the column and any records that have not exactly [i] fields,
    [Import] returns the error of the read and no slice, whatever was
    counted so far; the records after the failed one are not looked at,
    and the log holds what the records before it left. *)
Theorem Import_read_error_fatal ci header rows msg rest i :
  firstColumn header (EmailColumnName ci) i →
  Forall (λ row, length row ≠ i) rows →
  Import ci (Some (Fields header :: (Fields <$> rows) ++ Failure msg :: rest))
  = {| output := Normal (None, Some (ErrorString msg));
       importLog := skipLog i rows 2 |}.
Proof.
  intros Hcolumn Hrows.
  rewrite (Import_enters_loop _ _ _ _ Hcolumn).
  by rewrite Import_loop_prefix.
Qed.

Lemma Import_read_error_fatal_witness :
  let rows := [ ["Mildred"; "mhernandez0@github.io"]; ["Dennis"; "dhenry2"] ] in
  firstColumn ["name"; "email"] (EmailColumnName New) 1
  ∧ Forall (λ row, length row ≠ 1%nat) rows
  ∧ Import New (Some (Fields ["name"; "email"] :: (Fields <$> rows)
                      ++ Failure "record on line 4: wrong number of fields"
                      :: [Fields ["Anna"; "ariverag@whitehouse.gov"]]))
    = {| output := Normal (None, Some (ErrorString
                     "record on line 4: wrong number of fields"));
         importLog := ["skip line 3: invalid email format"] |}.
Proof.
  intros rows.
  assert (firstColumn ["name"; "email"] (EmailColumnName New) 1) as Hcolumn.
  { split; [reflexivity|]. intros [|j] Hj; [discriminate|lia]. }
  assert (Forall (λ row, length row ≠ 1%nat) rows) as Hrows.
  { repeat constructor; discriminate. }
  split; [exact Hcolumn|]. split; [exact Hrows|].
  exact (Import_read_error_fatal New _ rows _ _ 1%nat Hcolumn Hrows).
Defined.

(** X4. [Import] panics in one case only, the one of the guard of
    [processLine]: the header has the column, at index [i], and a record
    of exactly [i] fields is read before any read fails, the records
    before it having fewer or more fields. The panic is then the index
    [i] out of range for length [i]. *)
Theorem Import_panics_iff ci reader p :
  output (Import ci reader) = Panics p
  ↔ ∃ header i rows row tail,
      reader = Some (Fields header :: (Fields <$> rows) ++ Fields row :: tail)
      ∧ firstColumn header (EmailColumnName ci) i
      ∧ Forall (λ row, length row ≠ i) rows
      ∧ length row = i
      ∧ p = IndexOutOfRange (Z.of_nat i) (Z.of_nat i).
Proof.
  split.
  - unfold Import, parseHeader.
    destruct reader as [[|[header|msg] rest]|]; simpl; try done.
    destruct (parseHeader_loop header (EmailColumnName ci) 0) as [index|] eqn:Hloop;
      simpl; [|done].
    apply parseHeader_loop_found in Hloop as (i & -> & Hfirst).
    rewrite Z.add_0_l. intros Hpanic.
    destruct (Import_loop_panic _ _ _ _ _ _ _ Hpanic)
      as (rows & row & tail & -> & Hrows & Hrow & ->).
    exists header, i, rows, row, tail. done.
  - intros (header & i & rows & row & tail & -> & Hcolumn & Hrows & Hrow & ->).
    rewrite (Import_enters_loop _ _ _ _ Hcolumn), Import_loop_prefix by done.
    simpl. by rewrite processLine_length_eq_index by lia.
Qed.

Lemma Import_panics_iff_witness :
  output (Import New (Some [ Fields ["name"; "email"];
                             Fields ["Mildred"; "mhernandez0@github.io"];
                             Fields ["Dennis"] ]))
  = Panics (IndexOutOfRange 1 1).
Proof.
  apply (proj2 (Import_panics_iff New _ _)).
  exists ["name"; "email"], 1%nat, [ ["Mildred"; "mhernandez0@github.io"] ],
    ["Dennis"], [].
  split; [reflexivity|]. split.
  { split; [reflexivity|]. intros [|j] Hj; [discriminate|lia]. }
  split; [repeat constructor; discriminate|]. split; reflexivity.
Defined.

(** ** Records with a variable number of fields *)

Lemma iter_incr k lineNumber :
  GoInt.MinInt ≤ lineNumber → lineNumber + Z.of_nat k ≤ GoInt.MaxInt →
  Nat.iter k GoInt.incr lineNumber = lineNumber + Z.of_nat k.
Proof.
  intros Hmin. induction k as [|k IH]; intros Hmax; simpl; [lia|].
  rewrite IH by lia. rewrite incr_no_overflow by lia. lia.
Qed.

Lemma skipLog_lookup i rows lineNumber k row err :
  rows !! k = Some row →
  lineError i row (Nat.iter k GoInt.incr lineNumber) = Some err →
  skipLineMsg (Nat.iter k GoInt.incr lineNumber) err ∈ skipLog i rows lineNumber.
Proof.
  revert lineNumber k. induction rows as [|first rows IH];
    intros lineNumber k Hk Herr; [done|].
  simpl. destruct k as [|k]; simpl in Hk.
  - injection Hk as ->. simpl in Herr. rewrite Herr. set_solver.
  - apply elem_of_app. right. rewrite Nat.iter_succ_r in Herr |- *.
    by apply IH.
Qed.

(** After a header with the column at index [i], records none of which
    has exactly [i] fields are all processed. *)
Lemma Import_rows ci header rows i :
  firstColumn header (EmailColumnName ci) i →
  Forall (λ row, length row ≠ i) rows →
  Import ci (readerOf header rows)
  = {| output := Normal (Some (sortResults ci (aggregate i rows ∅)), None);
       importLog := skipLog i rows 2 |}.
Proof.
  intros Hcolumn Hrows. unfold readerOf.
  rewrite (Import_enters_loop _ _ _ _ Hcolumn).
  rewrite <- (app_nil_r (Fields <$> rows)).
  by rewrite Import_loop_prefix.
Qed.

(** X5. When the reader does not enforce a field count: after a header
    with the column at index [i], data records of ASCII text none of
    which has exactly [i] fields never stop the import. [Import] returns
    the sorted aggregation of the records with a valid email and logs one
    entry per other record; a record of fewer than [i] fields is skipped
    with the entry "skip line N: email field not found at line N", N
    being the rank of the record among the records read, the header
    having rank 1 (while the counter has not passed [MaxInt]). *)
Theorem Import_any_field_count ci header rows i :
  firstColumn header (EmailColumnName ci) i →
  Forall (λ row, length row ≠ i) rows →
  Forall asciiRow rows →
  Import ci (readerOf header rows)
  = {| output := Normal
         (Some (sortResults ci
                  (aggregate i (filter (λ row, validRow i row) rows) ∅)), None);
       importLog := skipLog i rows 2 |}
  ∧ ∀ k row,
      rows !! k = Some row → (length row < i)%nat →
      Z.of_nat k + 2 ≤ GoInt.MaxInt →
      "skip line " +:+ Fmt.verb_d (Z.of_nat k + 2)
        +:+ ": email field not found at line " +:+ Fmt.verb_d (Z.of_nat k + 2)
      ∈ importLog (Import ci (readerOf header rows)).
Proof.
  intros Hcolumn Hrows Hascii.
  rewrite (Import_rows _ _ _ _ Hcolumn Hrows).
  split; [by rewrite <- aggregate_filter|].
  intros k row Hrow Hshort Hbound. simpl.
  assert (Nat.iter k GoInt.incr 2 = Z.of_nat k + 2) as Hline.
  { rewrite iter_incr; [lia|int_range|lia]. }
  pose proof (skipLog_lookup i rows 2 k row
                (fieldNotFound (Z.of_nat k + 2)) Hrow) as Hin.
  rewrite Hline in Hin. apply Hin. unfold lineError.
  by rewrite (proj2 (Nat.ltb_lt _ _) Hshort).
Qed.

Lemma Import_any_field_count_witness :
  let rows := [ ["Mildred"; "Hernandez"; "mhernandez0@github.io"];
                ["Dennis"];
                ["Anna"; "Rivera"; "ariverag@whitehouse.gov"; "Female"] ] in
  firstColumn ["first_name"; "last_name"; "email"] (EmailColumnName New) 2
  ∧ Forall (λ row, length row ≠ 2%nat) rows
  ∧ Forall asciiRow rows
  ∧ output (Import New (readerOf ["first_name"; "last_name"; "email"] rows))
    = Normal (Some [ {| EmailDomain := "github.io"; Counter := 1 |};
                     {| EmailDomain := "whitehouse.gov"; Counter := 1 |} ], None)
  ∧ "skip line 3: email field not found at line 3"
    ∈ importLog (Import New (readerOf ["first_name"; "last_name"; "email"] rows)).
Proof.
  intros rows.
  assert (firstColumn ["first_name"; "last_name"; "email"] (EmailColumnName New) 2)
    as Hcolumn.
  { split; [reflexivity|]. intros [|[|j]] Hj; [discriminate|discriminate|lia]. }
  assert (Forall (λ row, length row ≠ 2%nat) rows) as Hrows.
  { repeat constructor; discriminate. }
  assert (Forall asciiRow rows) as Hascii by (repeat constructor).
  split; [exact Hcolumn|]. split; [exact Hrows|]. split; [exact Hascii|].
  destruct (Import_any_field_count New _ rows 2%nat Hcolumn Hrows Hascii)
    as [Himport Hshort].
  split.
  - rewrite Himport. vm_compute. reflexivity.
  - apply (Hshort 1%nat ["Dennis"] eq_refl).
    + simpl. lia.
    + vm_compute. discriminate.
Defined.

(** ** The count of each domain *)

Section DomainCounts.
Context (i : nat).

Lemma domainCount_cons domain row rows :
  domainCount i domain (row :: rows)
  = ((if decide (rowDomain i row = Some domain) then 1 else 0)
     + domainCount i domain rows)%nat.
Proof.
  unfold domainCount. rewrite filter_cons.
  by destruct (decide (rowDomain i row = Some domain)).
Qed.

Lemma aggregate_cons row rows custGrp :
  aggregate i (row :: rows) custGrp
  = aggregate i rows (aggregateRow i custGrp row).
Proof. done. Qed.

(** A domain is a key after the rows exactly when it was one before or
    some row is counted under it. *)
Lemma aggregate_is_Some rows custGrp domain :
  is_Some (aggregate i rows custGrp !! domain)
  ↔ is_Some (custGrp !! domain) ∨ (0 < domainCount i domain rows)%nat.
Proof.
  revert custGrp. induction rows as [|row rows IH]; intros custGrp.
  { unfold domainCount. simpl. split; [eauto|]. intros [?|?]; [done|lia]. }
  rewrite aggregate_cons, IH, domainCount_cons, aggregateRow_rowDomain.
  destruct (decide (rowDomain i row = Some domain)) as [Heq|Hne].
  - rewrite Heq, increment_lookup.
    split; [intros _; right; lia|intros _; left; eauto].
  - destruct (rowDomain i row) as [counted|]; [|done].
    by rewrite increment_lookup_ne by congruence.
Qed.

(** While it does not overflow, the counter of a domain grows by the
    number of rows counted under it. *)
Lemma aggregate_counter rows custGrp domain :
  GoInt.MinInt ≤ default 0 (custGrp !! domain) →
  default 0 (custGrp !! domain) + Z.of_nat (domainCount i domain rows)
    ≤ GoInt.MaxInt →
  default 0 (aggregate i rows custGrp !! domain)
  = default 0 (custGrp !! domain) + Z.of_nat (domainCount i domain rows).
Proof.
  revert custGrp. induction rows as [|row rows IH]; intros custGrp Hmin Hmax.
  { unfold domainCount. simpl. lia. }
  rewrite aggregate_cons. rewrite domainCount_cons in Hmax |- *.
  rewrite aggregateRow_rowDomain.
  destruct (decide (rowDomain i row = Some domain)) as [Heq|Hne].
  - rewrite Heq.
    assert (GoInt.incr (default 0 (custGrp !! domain))
            = default 0 (custGrp !! domain) + 1) as Hincr.
    { apply incr_no_overflow. lia. }
    rewrite IH; rewrite increment_lookup, Hincr; simpl; lia.
  - destruct (rowDomain i row) as [counted|]; [|by rewrite IH].
    rewrite IH; rewrite increment_lookup_ne by congruence; simpl in *; lia.
Qed.

Lemma domainCount_le domain rows :
  (domainCount i domain rows ≤ length rows)%nat.
Proof. apply length_filter. Qed.
End DomainCounts.

(** X6. For a header with the column, at index [i], and at most [MaxInt]
    data records of ASCII text none of which has exactly [i] fields, the
    sequence that [Import] returns has an entry for a domain exactly when
    at least one record has an email of two parts whose second part,
    lower-cased, is that domain, and the count of the entry is the number
    of these records. *)
Theorem Import_counts_per_domain ci header rows i :
  firstColumn header (EmailColumnName ci) i →
  Forall (λ row, length row ≠ i) rows →
  Forall asciiRow rows →
  Z.of_nat (length rows) ≤ GoInt.MaxInt →
  ∃ results,
    output (Import ci (readerOf header rows)) = Normal (Some results, None)
    ∧ ∀ domain count,
        {| EmailDomain := domain; Counter := count |} ∈ results
        ↔ (0 < domainCount i domain rows)%nat
          ∧ count = Z.of_nat (domainCount i domain rows).
Proof.
  intros Hcolumn Hrows Hascii Hbound.
  exists (sortResults ci (aggregate i rows ∅)).
  split; [by rewrite (Import_rows _ _ _ _ Hcolumn Hrows)|].
  intros domain count.
  unfold sortResults.
  rewrite sortResultsFrom_elem_of by apply rangeOrder_map_to_list.
  pose proof (aggregate_is_Some i rows ∅ domain) as Hkey.
  pose proof (aggregate_counter i rows ∅ domain) as Hcounter.
  pose proof (domainCount_le i domain rows) as Hle.
  rewrite lookup_empty in Hkey, Hcounter. simpl in Hcounter.
  rewrite Z.add_0_l in Hcounter.
  specialize (Hcounter ltac:(int_range) ltac:(lia)).
  split.
  - intros Hlookup. rewrite Hlookup in Hkey, Hcounter. simpl in Hcounter.
    split; [|done]. destruct (proj1 Hkey ltac:(eauto)) as [[? [=]]|?]; done.
  - intros [Hpos ->].
    destruct (proj2 Hkey (or_intror Hpos)) as [n Hn].
    rewrite Hn in Hcounter |- *. simpl in Hcounter. by rewrite Hcounter.
Qed.

Lemma Import_counts_per_domain_witness :
  firstColumn testHeader (EmailColumnName New) 2
  ∧ Forall (λ row, length row ≠ 2%nat) testRows
  ∧ Forall asciiRow testRows
  ∧ Z.of_nat (length testRows) ≤ GoInt.MaxInt
  ∧ ∃ results,
      output (Import New (readerOf testHeader testRows)) = Normal (Some results, None)
      ∧ ({| EmailDomain := "google.fr"; Counter := 3 |} ∈ results
         ↔ (0 < domainCount 2 "google.fr" testRows)%nat
           ∧ 3 = Z.of_nat (domainCount 2 "google.fr" testRows)).
Proof.
  assert (firstColumn testHeader (EmailColumnName New) 2) as Hcolumn.
  { split; [reflexivity|]. intros [|[|j]] Hj; [discriminate|discriminate|lia]. }
  assert (Forall (λ row, length row ≠ 2%nat) testRows) as Hrows.
  { repeat constructor; discriminate. }
  assert (Z.of_nat (length testRows) ≤ GoInt.MaxInt) as Hbound.
  { vm_compute. discriminate. }
  assert (Forall asciiRow testRows) as Hascii by (repeat constructor).
  split; [exact Hcolumn|]. split; [exact Hrows|]. split; [exact Hascii|].
  split; [exact Hbound|].
  destruct (Import_counts_per_domain New testHeader testRows 2%nat
              Hcolumn Hrows Hascii Hbound) as (results & Hout & Hcounts).
  exists results. split; [exact Hout|exact (Hcounts "google.fr" 3)].
Defined.

(** ** The order of the rows *)

Lemma increment_comm custGrp domain1 domain2 :
  increment (increment custGrp domain1) domain2
  = increment (increment custGrp domain2) domain1.
Proof.
  destruct (decide (domain1 = domain2)) as [->|Hne]; [done|].
  unfold increment.
  rewrite !lookup_insert_ne by done. by rewrite insert_insert_ne.
Qed.

Lemma aggregateRow_comm i custGrp row1 row2 :
  aggregateRow i (aggregateRow i custGrp row1) row2
  = aggregateRow i (aggregateRow i custGrp row2) row1.
Proof.
  rewrite !aggregateRow_rowDomain.
  destruct (rowDomain i row1), (rowDomain i row2); try done.
  apply increment_comm.
Qed.

Lemma aggregate_Permutation i rows1 rows2 custGrp :
  rows1 ≡ₚ rows2 → aggregate i rows1 custGrp = aggregate i rows2 custGrp.
Proof.
  intros Hperm. revert custGrp.
  induction Hperm as [|row rows1 rows2 _ IH|row1 row2 rows|rows1 rows2 rows3 _ IH1 _ IH2];
    intros custGrp.
  - done.
  - rewrite !aggregate_cons. apply IH.
  - rewrite !aggregate_cons. by rewrite aggregateRow_comm.
  - by rewrite IH1.
Qed.

(** X7. The sequence [Import] returns does not depend on the order of
    the data records: two inputs with the same header and the same
    records in different orders (no record of exactly [i] fields) give
    the same slice, with nil error. *)
Theorem Import_row_order ci header rows1 rows2 i :
  firstColumn header (EmailColumnName ci) i →
  Forall (λ row, length row ≠ i) rows1 →
  rows1 ≡ₚ rows2 →
  output (Import ci (readerOf header rows1))
  = output (Import ci (readerOf header rows2))
  ∧ ∃ results,
      output (Import ci (readerOf header rows1)) = Normal (Some results, None).
Proof.
  intros Hcolumn Hrows1 Hperm.
  assert (Forall (λ row, length row ≠ i) rows2) as Hrows2.
  { by rewrite <- Hperm. }
  rewrite (Import_rows _ _ _ _ Hcolumn Hrows1).
  rewrite (Import_rows _ _ _ _ Hcolumn Hrows2). simpl.
  split; [|eauto].
  by rewrite (aggregate_Permutation _ _ _ _ Hperm).
Qed.

Lemma Import_row_order_witness :
  let row1 := ["Mildred"; "mhernandez0@github.io"] in
  let row2 := ["Norma"; "nallen8@cnet.com"] in
  firstColumn ["name"; "email"] (EmailColumnName New) 1
  ∧ Forall (λ row, length row ≠ 1%nat) [row1; row2]
  ∧ [row1; row2] ≡ₚ [row2; row1]
  ∧ output (Import New (readerOf ["name"; "email"] [row1; row2]))
    = output (Import New (readerOf ["name"; "email"] [row2; row1])).
Proof.
  intros row1 row2.
  assert (firstColumn ["name"; "email"] (EmailColumnName New) 1) as Hcolumn.
  { split; [reflexivity|]. intros [|j] Hj; [discriminate|lia]. }
  assert (Forall (λ row, length row ≠ 1%nat) [row1; row2]) as Hrows.
  { repeat constructor; discriminate. }
  assert ([row1; row2] ≡ₚ [row2; row1]) as Hperm by apply perm_swap.
  split; [exact Hcolumn|]. split; [exact Hrows|]. split; [exact Hperm|].
  exact (proj1 (Import_row_order New _ _ _ 1%nat Hcolumn Hrows Hperm)).
Defined.

(** ** From the result back to the map *)

Lemma entries_elem_of results domain count :
  (domain, count) ∈ entries results
  ↔ {| EmailDomain := domain; Counter := count |} ∈ results.
Proof.
  unfold entries. rewrite list_elem_of_fmap. split.
  - by intros ([d c] & [= -> ->] & Hin).
  - intros Hin. by exists {| EmailDomain := domain; Counter := count |}.
Qed.

Lemma entries_domains results : (entries results).*1 = EmailDomain <$> results.
Proof.
  unfold entries. rewrite <- list_fmap_compose. done.
Qed.

(** X8. [sortResults] loses nothing of the map: whatever the order in
    which the keys are ranged over, the map built from the entries of the
    sequence is the aggregation map, and the sequence has as many entries
    as the map has keys. *)
Theorem sortResults_round_trip custGrp keys :
  rangeOrder custGrp keys →
  list_to_map (entries (sortResultsFrom keys custGrp)) = custGrp
  ∧ length (sortResultsFrom keys custGrp) = size custGrp.
Proof.
  intros Hkeys. split.
  - apply map_eq. intros domain. apply option_eq. intros count.
    rewrite <- elem_of_list_to_map.
    + rewrite entries_elem_of. by apply sortResultsFrom_elem_of.
    + rewrite entries_domains. by apply sortResultsFrom_NoDup.
  - unfold sortResultsFrom, buildResults.
    rewrite length_fmap, sortStrings_Permutation, Hkeys, length_fmap.
    apply length_map_to_list.
Qed.

Lemma sortResults_round_trip_witness :
  let custGrp : gmap string Z := {[ "github.io" := 2; "cnet.com" := 1 ]} in
  rangeOrder custGrp ["cnet.com"; "github.io"]
  ∧ list_to_map (entries (sortResultsFrom ["cnet.com"; "github.io"] custGrp))
    = custGrp.
Proof.
  intros custGrp.
  assert (rangeOrder custGrp ["cnet.com"; "github.io"]) as Hkeys.
  { unfold rangeOrder. vm_compute. first [apply perm_swap|reflexivity]. }
  split; [exact Hkeys|].
  exact (proj1 (sortResults_round_trip custGrp _ Hkeys)).
Defined.

(** ** Every record is counted or logged *)

Lemma lineError_validRow i row lineNumber :
  lineError i row lineNumber = None ↔ validRow i row = true.
Proof.
  unfold lineError. destruct (Nat.ltb_spec (length row) i) as [Hshort|Hlong].
  - unfold validRow. rewrite lookup_ge_None_2 by lia. done.
  - by destruct (validRow i row).
Qed.

Lemma skipLog_length i rows lineNumber :
  (length (skipLog i rows lineNumber)
   + length (filter (λ row, validRow i row) rows))%nat
  = length rows.
Proof.
  revert lineNumber. induction rows as [|row rows IH]; intros lineNumber; [done|].
  simpl. rewrite filter_cons, length_app.
  pose proof (lineError_validRow i row lineNumber) as Hvalid.
  specialize (IH (GoInt.incr lineNumber)).
  destruct (lineError i row lineNumber) as [err|].
  - destruct (validRow i row); [by pose proof (proj2 Hvalid eq_refl)|].
    simpl. lia.
  - rewrite (proj1 Hvalid) by done. simpl. lia.
Qed.

(** X9. No record is lost: for a header with the column, at index [i],
    and at most [MaxInt] data records none of which has exactly [i]
    fields, the sum of the counts returned plus the number of entries
    logged is the number of data records. *)
Theorem Import_counted_or_logged ci header rows i :
  firstColumn header (EmailColumnName ci) i →
  Forall (λ row, length row ≠ i) rows →
  Z.of_nat (length rows) ≤ GoInt.MaxInt →
  ∃ results,
    output (Import ci (readerOf header rows)) = Normal (Some results, None)
    ∧ totalCount results
      + Z.of_nat (length (importLog (Import ci (readerOf header rows))))
      = Z.of_nat (length rows).
Proof.
  intros Hcolumn Hrows Hbound.
  rewrite (Import_rows _ _ _ _ Hcolumn Hrows).
  simpl. eexists. split; [done|].
  rewrite totalCount_sortResults.
  rewrite (aggregate_total i rows ∅ 0), mapTotal_empty.
  - pose proof (skipLog_length i rows 2). lia.
  - intros domain n Hn. by rewrite lookup_empty in Hn.
  - lia.
  - pose proof (length_filter (λ row, validRow i row) rows). lia.
Qed.

Lemma Import_counted_or_logged_witness :
  let header := ["name"; "email"] in
  let rows := [ ["Mildred"; "mhernandez0@github.io"]; ["Dennis"; "dhenry2"];
                []; ["Norma"; "nallen8@cnet.com"; "Female"] ] in
  firstColumn header (EmailColumnName New) 1
  ∧ Forall (λ row, length row ≠ 1%nat) rows
  ∧ Z.of_nat (length rows) ≤ GoInt.MaxInt
  ∧ ∃ results,
      output (Import New (readerOf header rows)) = Normal (Some results, None)
      ∧ totalCount results
        + Z.of_nat (length (importLog (Import New (readerOf header rows))))
        = 4.
Proof.
  intros header rows.
  assert (firstColumn header (EmailColumnName New) 1) as Hcolumn.
  { split; [reflexivity|]. intros [|j] Hj; [discriminate|lia]. }
  assert (Forall (λ row, length row ≠ 1%nat) rows) as Hrows.
  { repeat constructor; discriminate. }
  assert (Z.of_nat (length rows) ≤ GoInt.MaxInt) as Hbound.
  { vm_compute. discriminate. }
  split; [exact Hcolumn|]. split; [exact Hrows|]. split; [exact Hbound|].
  exact (Import_counted_or_logged New header rows 1%nat Hcolumn Hrows Hbound).
Defined.

(** ** The email and its '@' *)

Lemma Count_one_address s sep :
  Strings.Count s sep = 1%nat →
  ∃ user domain,
    s = user +:+ String sep domain
    ∧ Strings.Count user sep = 0%nat ∧ Strings.Count domain sep = 0%nat.
Proof.
  induction s as [|c rest IH]; simpl; [done|].
  destruct (Ascii.eqb_spec c sep) as [->|Hne]; simpl.
  - intros [= Hrest]. by exists EmptyString, rest.
  - intros Hrest. destruct (IH Hrest) as (user & domain & -> & Huser & Hdomain).
    exists (String c user), domain. split; [done|]. split; [|done].
    simpl. by rewrite (proj2 (Ascii.eqb_neq _ _) Hne).
Qed.

(** X10. On a record that has its email field, [processLine] returns no
    error exactly when the field has one '@' and no more; the field is
    then [user@domain] with no '@' in either part, and, for a field of
    ASCII text, the key incremented is the lower-cased [domain]. *)
Theorem processLine_one_at_sign ci line i custGrp lineNumber emailField :
  line !! i = Some emailField →
  ((∃ custGrp', processLine ci line (Z.of_nat i) custGrp lineNumber
                = Normal (custGrp', None))
   ↔ Strings.Count emailField "@" = 1%nat)
  ∧ (Strings.Count emailField "@" = 1%nat →
     isASCII emailField = true →
     ∃ user domain,
       emailField = address user domain
       ∧ Strings.Count user "@" = 0%nat ∧ Strings.Count domain "@" = 0%nat
       ∧ processLine ci line (Z.of_nat i) custGrp lineNumber
         = Normal (increment custGrp (Strings.ToLower domain), None)).
Proof.
  intros Hfield.
  assert (Strings.Count emailField "@" = 1%nat →
          ∃ user domain,
            emailField = address user domain
            ∧ Strings.Count user "@" = 0%nat ∧ Strings.Count domain "@" = 0%nat
            ∧ processLine ci line (Z.of_nat i) custGrp lineNumber
              = Normal (increment custGrp (Strings.ToLower domain), None))
    as Hone.
  { intros Hcount.
    destruct (Count_one_address _ _ Hcount) as (user & domain & -> & Huser & Hdomain).
    exists user, domain. split; [done|]. split; [done|]. split; [done|].
    apply processLine_valid with (address user domain) user; [done|].
    by apply Split_address. }
  split; [|by intros Hcount _; apply Hone]. split.
  - intros [custGrp' Hcall].
    destruct (decide (Strings.Count emailField "@" = 1%nat)) as [|Hne]; [done|].
    rewrite (processLine_invalid ci line i custGrp lineNumber emailField)
      in Hcall; [done|done|].
    rewrite Split_length. lia.
  - intros Hcount. destruct (Hone Hcount) as (user & domain & _ & _ & _ & Hcall).
    eauto.
Qed.

Lemma processLine_one_at_sign_witness :
  let line := ["Mildred"; "mhernandez0@GitHub.io"] in
  line !! 1%nat = Some "mhernandez0@GitHub.io"
  ∧ Strings.Count "mhernandez0@GitHub.io" "@" = 1%nat
  ∧ ∃ custGrp', processLine New line 1 ∅ 2 = Normal (custGrp', None).
Proof.
  intros line.
  assert (Strings.Count "mhernandez0@GitHub.io" "@" = 1%nat) as Hcount
    by reflexivity.
  split; [reflexivity|]. split; [exact Hcount|].
  exact (proj2 (proj1 (processLine_one_at_sign New line 1 ∅ 2 _ eq_refl)) Hcount).
Defined.

(** ** What a call of processLine leaves alone *)

(** X11. A call of [processLine] that returns never removes a key,
    changes the counter of at most one key, adds at most one key, and
    when it returns an error, of either kind, it has left the map exactly
    as it was. *)
Theorem processLine_touches_one_key
  ci line emailColIndex custGrp lineNumber custGrp' err :
  processLine ci line emailColIndex custGrp lineNumber = Normal (custGrp', err) →
  dom custGrp ⊆ dom custGrp'
  ∧ (∀ domain1 domain2,
       custGrp' !! domain1 ≠ custGrp !! domain1 →
       custGrp' !! domain2 ≠ custGrp !! domain2 → domain1 = domain2)
  ∧ (size custGrp ≤ size custGrp' ≤ S (size custGrp))%nat
  ∧ (is_Some err → custGrp' = custGrp).
Proof.
  intros Hcall.
  destruct (processLine_cases _ _ _ _ _ _ _ Hcall)
    as [[-> _]|(component & -> & ->)].
  { split; [done|]. split; [done|]. split; [lia|done]. }
  set (key := Strings.ToLower component).
  split; [|split; [|split]].
  - unfold increment. rewrite dom_insert_L. set_solver.
  - intros domain1 domain2 H1 H2.
    destruct (decide (domain1 = key)) as [->|Hne1];
      [|by rewrite increment_lookup_ne in H1].
    destruct (decide (domain2 = key)) as [->|Hne2];
      [done|by rewrite increment_lookup_ne in H2].
  - unfold increment. destruct (custGrp !! key) as [old|] eqn:Hold.
    + rewrite map_size_insert_Some by eauto. lia.
    + rewrite map_size_insert_None by done. lia.
  - by intros [? ?].
Qed.

Lemma processLine_touches_one_key_witness :
  let custGrp : gmap string Z := {[ "github.io" := 2 ]} in
  processLine New ["Dennis"; "dhenry2"] 1 custGrp 4
  = Normal (custGrp, Some invalidEmailFormat)
  ∧ dom custGrp ⊆ dom custGrp.
Proof.
  intros custGrp.
  assert (processLine New ["Dennis"; "dhenry2"] 1 custGrp 4
          = Normal (custGrp, Some invalidEmailFormat)) as Hcall
    by (vm_compute; reflexivity).
  split; [exact Hcall|].
  exact (proj1 (processLine_touches_one_key _ _ _ _ _ _ _ Hcall)).
Defined.

(** ** Import over a reader of [encoding/csv] *)

Lemma csvResults_positive n source i :
  0 < n → Z.of_nat i ≠ n → Forall (notOfLength i) (csvResults n source).
Proof.
  intros Hn Hi. induction source as [|rec source IH]; simpl; [constructor|].
  rewrite (proj2 (Z.ltb_lt 0 n) Hn). constructor; [|done].
  destruct (parseError rec); [done|].
  destruct (Z.eqb_spec (Z.of_nat (length (rawFields rec))) n); simpl; [lia|done].
Qed.

Lemma csvResults_prefix n records tail :
  0 < n →
  Forall (λ rec, parseError rec = None
                 ∧ Z.of_nat (length (rawFields rec)) = n) records →
  csvResults n (records ++ tail)
  = (Fields <$> (rawFields <$> records)) ++ csvResults n tail.
Proof.
  intros Hn Hrecords.
  induction Hrecords as [|rec records [Hparse Hlen] _ IH]; [done|].
  simpl. rewrite (proj2 (Z.ltb_lt 0 n) Hn), Hparse, Hlen, Z.eqb_refl.
  by rewrite IH.
Qed.

(** A reader whose records after the header never have exactly as many
    fields as the index of a column of the header cannot make [Import]
    panic. *)
Lemma Import_no_panic ci header rest :
  (∀ i, (i < length header)%nat → Forall (notOfLength i) rest) →
  ∃ results err,
    output (Import ci (Some (Fields header :: rest))) = Normal (results, err).
Proof.
  intros Hrest. unfold Import, parseHeader. simpl.
  destruct (parseHeader_loop header (EmailColumnName ci) 0) as [index|] eqn:Hloop;
    simpl; [|eauto].
  apply parseHeader_loop_found in Hloop as (i & -> & Hi & _).
  rewrite Z.add_0_l. apply Import_loop_no_panic, Hrest.
  by eapply lookup_lt_Some.
Qed.

(** X12. With a reader of [encoding/csv] whose [FieldsPerRecord] is zero,
    as [csv.NewReader] leaves it, or positive, [Import] never panics,
    whatever the records of the stream: the field count that the reader
    enforces keeps every record away from the guard of [processLine]. *)
Theorem Import_csv_never_panics ci fieldsPerRecord source :
  0 ≤ fieldsPerRecord →
  ∃ results err,
    output (Import ci (Some (csvResults fieldsPerRecord source)))
    = Normal (results, err).
Proof.
  intros Hfields. destruct source as [|rec source]; [simpl; eauto|].
  simpl. destruct (Z.ltb_spec 0 fieldsPerRecord) as [Hpos|Hzero].
  - destruct (parseError rec); [simpl; eauto|].
    destruct (Z.eqb_spec (Z.of_nat (length (rawFields rec))) fieldsPerRecord)
      as [Hlen|Hlen]; [|simpl; eauto].
    apply Import_no_panic. intros i Hi.
    apply csvResults_positive; lia.
  - assert (fieldsPerRecord = 0) as -> by lia. simpl.
    destruct (parseError rec); [simpl; eauto|].
    apply Import_no_panic. intros i Hi.
    apply csvResults_positive; lia.
Qed.

Lemma Import_csv_never_panics_witness :
  0 ≤ 0
  ∧ ∃ results err,
      output (Import New (Some (csvResults 0
        [ {| startLine := 1; rawFields := ["first_name"; "last_name"; "email"];
             parseError := None |};
          {| startLine := 2; rawFields := ["Dennis"; "Henry"];
             parseError := None |} ])))
      = Normal (results, err).
Proof.
  split; [lia|].
  exact (Import_csv_never_panics New 0 _ (Z.le_refl 0)).
Defined.

(** X13. With the reader that [csv.NewReader] gives, a data record whose
    number of fields differs from the header's is fatal: when the header
    has the column and the records before have the header's field count,
    [Import] returns no slice and the error "record on line N: wrong
    number of fields", N being the line the record starts on; what was
    counted before is dropped and the records after it are not read. *)
Theorem Import_wrong_field_count ci headerRecord records bad rest i :
  parseError headerRecord = None →
  firstColumn (rawFields headerRecord) (EmailColumnName ci) i →
  Forall (λ rec, parseError rec = None
                 ∧ length (rawFields rec) = length (rawFields headerRecord))
         records →
  parseError bad = None →
  length (rawFields bad) ≠ length (rawFields headerRecord) →
  Import ci (Some (NewReader (headerRecord :: records ++ bad :: rest)))
  = {| output := Normal (None, Some (ErrorString
         ("record on line " +:+ Fmt.verb_d (startLine bad)
          +:+ ": wrong number of fields")));
       importLog := skipLog i (rawFields <$> records) 2 |}.
Proof.
  intros Hheader Hcolumn Hrecords Hparse Hbad.
  pose proof (lookup_lt_Some _ _ _ (proj1 Hcolumn)) as Hi.
  unfold NewReader. simpl. rewrite Hheader.
  set (n := Z.of_nat (length (rawFields headerRecord))).
  rewrite csvResults_prefix; [|lia|].
  - simpl. rewrite (proj2 (Z.ltb_lt 0 n)) by lia. rewrite Hparse.
    destruct (Z.eqb_spec (Z.of_nat (length (rawFields bad))) n); [lia|].
    rewrite (Import_enters_loop _ _ _ _ Hcolumn).
    rewrite Import_loop_prefix; [done|].
    apply Forall_fmap. eapply Forall_impl; [exact Hrecords|].
    intros rec [_ Hlen]. simpl. lia.
  - eapply Forall_impl; [exact Hrecords|]. intros rec [? Hlen].
    split; [done|]. unfold n. by rewrite Hlen.
Qed.

Lemma Import_wrong_field_count_witness :
  let headerRecord :=
    {| startLine := 1; parseError := None;
       rawFields := ["first_name"; "last_name"; "email"; "gender"; "ip_address"] |} in
  let records :=
    [ {| startLine := 2; parseError := None;
         rawFields := ["Mildred"; "Hernandez"; "mhernandez0@github.io"; "Female";
                       "38.194.51.128"] |} ] in
  let bad :=
    {| startLine := 3; parseError := None; rawFields := ["Dennis"; "Henry"] |} in
  firstColumn (rawFields headerRecord) (EmailColumnName New) 2
  ∧ output (Import New (Some (NewReader (headerRecord :: records ++ [bad]))))
    = Normal (None, Some (ErrorString "record on line 3: wrong number of fields")).
Proof.
  intros headerRecord records bad.
  assert (firstColumn (rawFields headerRecord) (EmailColumnName New) 2) as Hcolumn.
  { split; [reflexivity|]. intros [|[|j]] Hj; [discriminate|discriminate|lia]. }
  split; [exact Hcolumn|].
  assert (Forall (λ rec, parseError rec = None
                         ∧ length (rawFields rec) = length (rawFields headerRecord))
                 records) as Hrecords.
  { repeat constructor. }
  assert (length (rawFields bad) ≠ length (rawFields headerRecord)) as Hbad
    by discriminate.
  rewrite (Import_wrong_field_count New headerRecord records bad [] 2%nat
             eq_refl Hcolumn Hrecords eq_refl Hbad).
  reflexivity.
Defined.

(** ** ImportFile *)

(** An [Import] that returns gives an error and no slice, or a slice and
    no error. *)
Lemma Import_returns ci reader results err :
  output (Import ci reader) = Normal (results, err) →
  (results = None ∧ is_Some err) ∨ (is_Some results ∧ err = None).
Proof.
  unfold Import, parseHeader.
  destruct reader as [[|[header|msg] rest]|]; simpl;
    try (intros [= <- <-]; left; eauto).
  destruct (parseHeader_loop header (EmailColumnName ci) 0) as [index|];
    simpl; [|intros [= <- <-]; left; eauto].
  intros Hout.
  destruct (Import_loop_returns _ _ _ _ _ _ _ _ Hout)
    as [(final & -> & ->)|(msg & -> & ->)]; [right|left]; eauto.
Qed.

Lemma NewReader_never_panics ci source :
  ∃ results err,
    output (Import ci (Some (NewReader source))) = Normal (results, err).
Proof.
  unfold NewReader. destruct source as [|rec source]; [simpl; eauto|].
  simpl. destruct (parseError rec); [simpl; eauto|].
  apply Import_no_panic. intros i Hi. apply csvResults_positive; lia.
Qed.

(** X14. [ImportFile] never panics, whatever the file system holds: it
    returns a slice or an error, never both and never neither; and it
    leaves no file open, having either opened nothing (the open failed)
    or opened the configured file and closed it. *)
Theorem ImportFile_safe ci fs :
  ∃ results err,
    fileOutput (ImportFile ci fs) = Normal (results, err)
    ∧ (results = None ↔ is_Some err)
    ∧ (fileOps (ImportFile ci fs) = []
       ∨ fileOps (ImportFile ci fs)
         = [Opened (CsvFileName ci); Closed (CsvFileName ci)]).
Proof.
  unfold ImportFile. destruct (fs (CsvFileName ci)) as [reason|source]; simpl.
  { eexists _, _. split; [done|]. split; [|by left]. split; [eauto|done]. }
  destruct (NewReader_never_panics ci source) as (results & err & Hout).
  rewrite Hout. simpl.
  destruct (Import_returns _ _ _ _ Hout) as [[-> [e ->]]|[[slice ->] ->]].
  - eexists _, _. split; [done|]. split; [|by right]. split; [eauto|done].
  - eexists _, _. split; [done|]. split; [|by right].
    split; [done|by intros [? ?]].
Qed.

(** X15. When the configured file cannot be opened, [ImportFile] returns
    no slice and the error "unable to open file: open NAME: REASON", and
    logs nothing. When it can, [ImportFile] returns and logs exactly what
    [Import] does on a fresh reader of [encoding/csv] over the file. *)
Theorem ImportFile_as_Import ci fs :
  (∀ reason,
     fs (CsvFileName ci) = inl reason →
     fileOutput (ImportFile ci fs)
     = Normal (None, Some (ErrorString
         ("unable to open file: open " +:+ CsvFileName ci +:+ ": " +:+ reason)))
     ∧ fileLog (ImportFile ci fs) = [])
  ∧ (∀ source,
       fs (CsvFileName ci) = inr source →
       fileOutput (ImportFile ci fs) = output (Import ci (Some (NewReader source)))
       ∧ fileLog (ImportFile ci fs) = importLog (Import ci (Some (NewReader source)))).
Proof.
  unfold ImportFile. split.
  - intros reason ->. done.
  - intros source ->. simpl. split; [|done].
    destruct (output (Import ci (Some (NewReader source))))
      as [[results err]|p] eqn:Hout; simpl; [|done].
    by destruct (Import_returns _ _ _ _ Hout) as [[-> [e ->]]|[[slice ->] ->]].
Qed.

Lemma ImportFile_as_Import_witness :
  let fs : fileSystem := λ name,
    if String.eqb name "customers.csv"
    then inr [ {| startLine := 1; rawFields := ["name"; "email"]; parseError := None |};
               {| startLine := 2; rawFields := ["Mildred"; "mhernandez0@github.io"];
                  parseError := None |} ]
    else inl "no such file or directory" in
  fileOutput (ImportFile (SetCsvFileName New "dummy_file.csv") fs)
  = Normal (None, Some (ErrorString
      "unable to open file: open dummy_file.csv: no such file or directory"))
  ∧ fileOutput (ImportFile New fs)
    = Normal (Some [ {| EmailDomain := "github.io"; Counter := 1 |} ], None).
Proof.
  intros fs. split.
  - exact (proj1 (proj1 (ImportFile_as_Import (SetCsvFileName New "dummy_file.csv") fs)
                    "no such file or directory" eq_refl)).
  - rewrite (proj1 (proj2 (ImportFile_as_Import New fs) _ eq_refl)).
    vm_compute. reflexivity.
Defined.

Lemma NewReader_well_formed headerRecord records :
  parseError headerRecord = None →
  rawFields headerRecord ≠ [] →
  Forall (λ rec, parseError rec = None
                 ∧ length (rawFields rec) = length (rawFields headerRecord))
         records →
  Some (NewReader (headerRecord :: records))
  = readerOf (rawFields headerRecord) (rawFields <$> records).
Proof.
  intros Hheader Hfields Hrecords. unfold NewReader, readerOf. simpl.
  rewrite Hheader. do 2 f_equal.
  rewrite <- (app_nil_r records) at 1. rewrite csvResults_prefix.
  - simpl. by rewrite app_nil_r.
  - destruct (rawFields headerRecord); simpl; [done|lia].
  - eapply Forall_impl; [exact Hrecords|]. intros rec [? Hlen].
    split; [done|]. by rewrite Hlen.
Qed.

(** X16. End to end: when the configured file can be opened, parses
    without error, its header has the column and all its records, of
    ASCII text and at most [MaxInt] of them, have the header's field
    count, [ImportFile] returns, with nil error, a sequence that is
    strictly ascending by domain and has an entry for a domain exactly
    when some record has an email of two parts with that lower-cased
    domain, the count being the number of these records. *)
Theorem ImportFile_well_formed_file ci fs headerRecord records i :
  fs (CsvFileName ci) = inr (headerRecord :: records) →
  parseError headerRecord = None →
  firstColumn (rawFields headerRecord) (EmailColumnName ci) i →
  Forall (λ rec, parseError rec = None
                 ∧ length (rawFields rec) = length (rawFields headerRecord))
         records →
  Forall (λ rec, asciiRow (rawFields rec)) records →
  Z.of_nat (length records) ≤ GoInt.MaxInt →
  ∃ results,
    fileOutput (ImportFile ci fs) = Normal (Some results, None)
    ∧ StronglySorted domainLt results
    ∧ (∀ domain count,
         {| EmailDomain := domain; Counter := count |} ∈ results
         ↔ (0 < domainCount i domain (rawFields <$> records))%nat
           ∧ count = Z.of_nat (domainCount i domain (rawFields <$> records))).
Proof.
  intros Hfile Hheader Hcolumn Hrecords Hascii Hbound.
  pose proof (lookup_lt_Some _ _ _ (proj1 Hcolumn)) as Hi.
  set (rows := rawFields <$> records).
  assert (Forall (λ row, length row ≠ i) rows) as Hrows.
  { apply Forall_fmap. eapply Forall_impl; [exact Hrecords|].
    intros rec [_ Hlen]. simpl. lia. }
  unfold ImportFile. rewrite Hfile.
  rewrite NewReader_well_formed; [|done| |done].
  2:{ intros Hnil. rewrite Hnil in Hi. simpl in Hi. lia. }
  fold rows. rewrite (Import_rows _ _ _ _ Hcolumn Hrows). simpl.
  exists (sortResults ci (aggregate i rows ∅)).
  split; [done|].
  split; [apply sortResultsFrom_sorted, rangeOrder_map_to_list|].
  intros domain count. unfold sortResults.
  rewrite sortResultsFrom_elem_of by apply rangeOrder_map_to_list.
  pose proof (aggregate_is_Some i rows ∅ domain) as Hkey.
  pose proof (aggregate_counter i rows ∅ domain) as Hcounter.
  pose proof (domainCount_le i domain rows) as Hle.
  assert (length rows = length records) as Hlength by apply length_fmap.
  rewrite lookup_empty in Hkey, Hcounter. simpl in Hcounter.
  rewrite Z.add_0_l in Hcounter.
  specialize (Hcounter ltac:(int_range) ltac:(lia)).
  split.
  - intros Hlookup. rewrite Hlookup in Hkey, Hcounter. simpl in Hcounter.
    split; [|done]. destruct (proj1 Hkey ltac:(eauto)) as [[? [=]]|?]; done.
  - intros [Hpos ->].
    destruct (proj2 Hkey (or_intror Hpos)) as [n Hn].
    rewrite Hn in Hcounter |- *. simpl in Hcounter. by rewrite Hcounter.
Qed.

Lemma ImportFile_well_formed_file_witness :
  let headerRecord :=
    {| startLine := 1; rawFields := ["name"; "email"]; parseError := None |} in
  let records :=
    [ {| startLine := 2; rawFields := ["Mildred"; "mhernandez0@github.io"];
         parseError := None |};
      {| startLine := 3; rawFields := ["Lori"; "lelliotth@GITHUB.io"];
         parseError := None |} ] in
  let fs : fileSystem := λ _, inr (headerRecord :: records) in
  firstColumn (rawFields headerRecord) (EmailColumnName New) 1
  ∧ Forall (λ rec, asciiRow (rawFields rec)) records
  ∧ ∃ results,
      fileOutput (ImportFile New fs) = Normal (Some results, None)
      ∧ ({| EmailDomain := "github.io"; Counter := 2 |} ∈ results
         ↔ (0 < domainCount 1 "github.io" (rawFields <$> records))%nat
           ∧ 2 = Z.of_nat (domainCount 1 "github.io" (rawFields <$> records))).
Proof.
  intros headerRecord records fs.
  assert (firstColumn (rawFields headerRecord) (EmailColumnName New) 1) as Hcolumn.
  { split; [reflexivity|]. intros [|j] Hj; [discriminate|lia]. }
  assert (Forall (λ rec, asciiRow (rawFields rec)) records) as Hascii.
  { repeat constructor. }
  split; [exact Hcolumn|]. split; [exact Hascii|].
  assert (Forall (λ rec, parseError rec = None
                         ∧ length (rawFields rec) = length (rawFields headerRecord))
                 records) as Hrecords.
  { repeat constructor. }
  assert (Z.of_nat (length records) ≤ GoInt.MaxInt) as Hbound.
  { vm_compute. discriminate. }
  destruct (ImportFile_well_formed_file New fs headerRecord records 1%nat
              eq_refl eq_refl Hcolumn Hrecords Hascii Hbound)
    as (results & Hout & _ & Hcounts).
  exists results. split; [exact Hout|exact (Hcounts "github.io" 2)].
Defined.

(** ** A header without the column *)

(** X17. The column is matched by exact comparison of the names. When no
    field of the header is equal to the configured name, a name without
    '%' in it, [Import] returns no slice and the error "missing column
    name 'NAME' in the first line of the file", logs this same text once,
    and does not look at the records after the header. *)
Theorem Import_missing_column_error ci header rest :
  EmailColumnName ci ∉ header →
  Strings.Count (EmailColumnName ci) "%" = 0%nat →
  Import ci (Some (Fields header :: rest))
  = {| output := Normal (None, Some (ErrorString
         ("missing column name '" +:+ EmailColumnName ci
          +:+ "' in the first line of the file")));
       importLog := ["missing column name '" +:+ EmailColumnName ci
                     +:+ "' in the first line of the file"] |}.
Proof.
  intros Hmissing Hplain. rewrite Import_missing_column by done.
  unfold Fmt.Errorf0, Fmt.Sprintf0. rewrite noOperands_plain; [done|].
  unfold missingColumnMsg. rewrite !Count_append, Hplain. reflexivity.
Qed.

Lemma Import_missing_column_error_witness :
  let header := ["first_name"; "last_name"; "MAIL"; "gender"; "ip_address"] in
  (EmailColumnName New ∉ header)
  ∧ Strings.Count (EmailColumnName New) "%" = 0%nat
  ∧ Import New (Some [ Fields header;
                       Fields ["Mildred"; "Hernandez"; "mhernandez0@github.io";
                               "Female"; "38.194.51.128"] ])
    = {| output := Normal (None, Some (ErrorString
           "missing column name 'email' in the first line of the file"));
         importLog :=
           ["missing column name 'email' in the first line of the file"] |}.
Proof.
  intros header.
  assert (EmailColumnName New ∉ header) as Hmissing.
  { unfold header. rewrite !not_elem_of_cons.
    repeat split; try discriminate. apply not_elem_of_nil. }
  assert (Strings.Count (EmailColumnName New) "%" = 0%nat) as Hplain
    by reflexivity.
  split; [exact Hmissing|]. split; [exact Hplain|].
  exact (Import_missing_column_error New header _ Hmissing Hplain).
Defined.
